(** * Poster feed view: decoder, author filter and reload scheduling

    A shallow embedding of [src/components/atoms/ViewGraph.tsx]: the
    post decoder [parsePost], the rendering of the transaction list
    (author filter, decoding, the per-post render guard) and the effect
    that subscribes to [NewPost] logs and schedules reloads.

    The component handles values whose shape is only known at run time
    (the indexer's response and the result of [JSON.parse]), so data is
    modelled as JavaScript values, and evaluation that may raise as a
    completion ([Normal] or [Throw]). *)

From Stdlib Require Import String Ascii.
From stdpp Require Import base option list numbers sorting.

Set Warnings "-register-all".
Local Open Scope N_scope.

(** ** JavaScript values *)

Module JS.

(** A string is a sequence of UTF-16 code units. *)
Definition jsstring := list N.

(** The string a source literal made of ASCII characters denotes. *)
Definition lit (s : string) : jsstring :=
  map N_of_ascii (list_ascii_of_string s).
Arguments lit s%_string.

(** A number literal of JSON, kept as the decimal it denotes:
    [(-1)^neg * mantissa * 10^exp10].  The Number it evaluates to is its
    rounding to a double; the component only ever tests a Number for
    truthiness, which [rounds_to_zero] decides on the decimal. *)
Record decimal := Decimal { neg : bool; mantissa : N; exp10 : Z }.

(** Values that the indexer's response and [JSON.parse] can hold. An
    object is its own properties, with distinct keys, in the order they
    were defined (JavaScript lists integer-like keys first; nothing
    here reads the order); its prototype is [Object.prototype] (an
    array's, [Array.prototype]). *)
Inductive JSValue :=
| JSUndefined
| JSNull
| JSBool (b : bool)
| JSNumber (d : decimal)
| JSString (s : jsstring)
| JSArray (elems : list JSValue)
| JSObject (props : list (jsstring * JSValue)).

Inductive JSError := TypeError | SyntaxError.

(** The outcome of evaluating an expression or a block. *)
Inductive Completion (A : Type) :=
| Normal (a : A)
| Throw (e : JSError).
Arguments Normal {A} a.
Arguments Throw {A} e.

#[global] Instance Completion_ret : MRet Completion := @Normal.
#[global] Instance Completion_bind : MBind Completion := λ A B f m,
  match m with
  | Normal a => f a
  | Throw e => Throw e
  end.

(** [try { body } catch (err) { handler }] *)
Definition try_catch {A} (body : Completion A) (handler : JSError → Completion A)
  : Completion A :=
  match body with
  | Normal a => Normal a
  | Throw e => handler e
  end.

(** Own property lookup. *)
Fixpoint own (k : jsstring) (props : list (jsstring * JSValue)) : option JSValue :=
  match props with
  | [] => None
  | (k', v) :: rest => if decide (k = k') then Some v else own k rest
  end.

(** [CreateDataProperty]: an existing key keeps its place and takes the
    new value, a new key goes last. *)
Fixpoint define (k : jsstring) (v : JSValue) (props : list (jsstring * JSValue))
  : list (jsstring * JSValue) :=
  match props with
  | [] => [(k, v)]
  | (k', v') :: rest =>
      if decide (k = k') then (k, v) :: rest else (k', v') :: define k v rest
  end.

(** [k in v], for a key [k] that no built-in prototype defines and that
    is neither an array index nor ["length"] (the component asks for
    ['type'] only).  The right operand must be an object. *)
Definition js_in (k : jsstring) (v : JSValue) : Completion bool :=
  match v with
  | JSObject props => Normal (bool_decide (is_Some (own k props)))
  | JSArray _ => Normal false
  | _ => Throw TypeError
  end.

(** [v.k] and the [{ k } = v] of a destructuring pattern, for the same
    keys as [js_in]: reading a property of [null] or [undefined] raises,
    a primitive or an array has no such property. *)
Definition get (k : jsstring) (v : JSValue) : Completion JSValue :=
  match v with
  | JSUndefined | JSNull => Throw TypeError
  | JSObject props => Normal (default JSUndefined (own k props))
  | _ => Normal JSUndefined
  end.

(** A positive decimal at most [2^-1075] rounds to zero (ties to even);
    so does a zero mantissa. *)
Definition rounds_to_zero (d : decimal) : bool :=
  match exp10 d with
  | Zneg e => bool_decide (mantissa d * 2 ^ 1075 ≤ 10 ^ Npos e)
  | _ => bool_decide (mantissa d = 0)
  end.

(** [ToBoolean] *)
Definition ToBoolean (v : JSValue) : bool :=
  match v with
  | JSUndefined | JSNull => false
  | JSBool b => b
  | JSNumber d => negb (rounds_to_zero d)
  | JSString s => bool_decide (s ≠ [])
  | JSArray _ | JSObject _ => true
  end.

(** Whether [ToString v] raises.  An ordinary object converts through
    [Object.prototype.toString] unless an own ["toString"] property
    shadows it: a value read from JSON is not callable, [valueOf] then
    returns the object itself and the conversion raises a [TypeError].
    An array converts through [join], which converts its elements
    ([null] and [undefined] to the empty string). *)
Fixpoint ToString_throws (v : JSValue) : bool :=
  match v with
  | JSObject props => bool_decide (is_Some (own (lit "toString") props))
  | JSArray elems => existsb ToString_throws elems
  | _ => false
  end.

(** Whether [ToString v] is the string ['microblog'], for a [v] on
    which it does not raise.  The string has no comma, so an array
    equal to it has exactly one element; the string of a number, of a
    boolean and of an ordinary object (["[object Object]"]) differ from
    it. *)
Fixpoint ToString_is_microblog (v : JSValue) : bool :=
  match v with
  | JSString s => bool_decide (s = lit "microblog")
  | JSArray [x] => ToString_is_microblog x
  | _ => false
  end.

(** [v == 'microblog'] (IsLooselyEqual with a String): a String
    compares by its code units; [null] and [undefined] equal no
    string; a Boolean and a Number compare with
    [ToNumber 'microblog'], which is [NaN]; an object is first taken to
    a primitive, here its string. *)
Definition eq_microblog (v : JSValue) : Completion bool :=
  match v with
  | JSString s => Normal (bool_decide (s = lit "microblog"))
  | JSArray _ | JSObject _ =>
      if ToString_throws v then Throw TypeError
      else Normal (ToString_is_microblog v)
  | _ => Normal false
  end.

End JS.
Import JS.

(** ** [JSON.parse]

    The grammar of ECMA-404 as a machine that reads one code unit at a
    time: a lexical mode and the stack of the arrays and objects that
    are still open. *)

Module JSON.

Inductive frame :=
| FArray (done : list JSValue)
| FObject (done : list (jsstring * JSValue))
| FMember (done : list (jsstring * JSValue)) (key : jsstring).

(** Where the machine stands inside a number literal. *)
Inductive numpos :=
| NMinus | NZero | NInt | NDot | NFrac | NExp | NExpSign | NExpDigits.

Record numacc := NumAcc {
  n_neg : bool; n_mantissa : N; n_frac : N; n_eneg : bool; n_exp : N }.

Inductive mode :=
| Value
| ValueOrEnd
| KeyOrEnd
| Key
| Colon
| After
| Done (v : JSValue)
| Literal (rest : jsstring) (v : JSValue)
| Str (acc : jsstring)
| Escape (acc : jsstring)
| Unicode (acc : jsstring) (read : nat) (code : N)
| Number (pos : numpos) (acc : numacc).

Definition state : Type := mode * list frame.

Definition is_space (c : N) : bool :=
  bool_decide (c = 32 ∨ c = 9 ∨ c = 10 ∨ c = 13).

Definition digit (c : N) : option N :=
  if bool_decide (48 ≤ c ≤ 57) then Some (c - 48) else None.

Definition hexdigit (c : N) : option N :=
  if bool_decide (48 ≤ c ≤ 57) then Some (c - 48)
  else if bool_decide (97 ≤ c ≤ 102) then Some (c - 87)
  else if bool_decide (65 ≤ c ≤ 70) then Some (c - 55)
  else None.

(** A value is complete: it is the whole text, the next element of the
    open array, or the value of the open member. *)
Definition complete (v : JSValue) (stack : list frame) : option state :=
  match stack with
  | [] => Some (Done v, [])
  | FArray done :: up => Some (After, FArray (done ++ [v]) :: up)
  | FMember done key :: up => Some (After, FObject (define key v done) :: up)
  | FObject _ :: _ => None
  end.

(** A string is complete: a key where the open object awaits one, a
    value elsewhere. *)
Definition complete_string (s : jsstring) (stack : list frame) : option state :=
  match stack with
  | FObject done :: up => Some (Colon, FMember done s :: up)
  | _ => complete (JSString s) stack
  end.

Definition number_value (a : numacc) : JSValue :=
  JSNumber (Decimal (n_neg a) (n_mantissa a)
    ((if n_eneg a then - Z.of_N (n_exp a) else Z.of_N (n_exp a)) - Z.of_N (n_frac a))).

(** The literal may end here. *)
Definition number_ends (p : numpos) : bool :=
  match p with
  | NZero | NInt | NFrac | NExpDigits => true
  | _ => false
  end.

Definition push_digit (a : numacc) (d : N) (frac : bool) : numacc :=
  NumAcc (n_neg a) (10 * n_mantissa a + d)
    (if frac then n_frac a + 1 else n_frac a) (n_eneg a) (n_exp a).

Definition push_exp (a : numacc) (d : N) : numacc :=
  NumAcc (n_neg a) (n_mantissa a) (n_frac a) (n_eneg a) (10 * n_exp a + d).

(** One more code unit of a number literal, [None] when [c] is no part
    of it. *)
Definition number_step (p : numpos) (a : numacc) (c : N)
  : option (numpos * numacc) :=
  let exponent := bool_decide (c = 101 ∨ c = 69) in
  match p, digit c with
  | NMinus, Some d => Some (if bool_decide (d = 0) then NZero else NInt, push_digit a d false)
  | NInt, Some d => Some (NInt, push_digit a d false)
  | (NDot | NFrac), Some d => Some (NFrac, push_digit a d true)
  | (NExp | NExpSign | NExpDigits), Some d => Some (NExpDigits, push_exp a d)
  | (NZero | NInt), None =>
      if bool_decide (c = 46) then Some (NDot, a)
      else if exponent then Some (NExp, a) else None
  | NFrac, None => if exponent then Some (NExp, a) else None
  | NExp, None =>
      if bool_decide (c = 43) then Some (NExpSign, a)
      else if bool_decide (c = 45)
      then Some (NExpSign, NumAcc (n_neg a) (n_mantissa a) (n_frac a) true (n_exp a))
      else None
  | _, _ => None
  end.

(** After a complete value: a separator, the end of the open
    container, or white space. *)
Definition step_after (stack : list frame) (c : N) : option state :=
  if is_space c then Some (After, stack)
  else match stack with
  | FArray done :: up =>
      if bool_decide (c = 44) then Some (Value, stack)
      else if bool_decide (c = 93) then complete (JSArray done) up
      else None
  | FObject done :: up =>
      if bool_decide (c = 44) then Some (Key, stack)
      else if bool_decide (c = 125) then complete (JSObject done) up
      else None
  | _ => None
  end.

(** The start of a value. *)
Definition step_value (stack : list frame) (c : N) : option state :=
  let zero := NumAcc false 0 0 false 0 in
  if bool_decide (c = 123) then Some (KeyOrEnd, FObject [] :: stack)
  else if bool_decide (c = 91) then Some (ValueOrEnd, FArray [] :: stack)
  else if bool_decide (c = 34) then Some (Str [], stack)
  else if bool_decide (c = 45) then Some (Number NMinus (NumAcc true 0 0 false 0), stack)
  else if bool_decide (c = 116) then Some (Literal (lit "rue") (JSBool true), stack)
  else if bool_decide (c = 102) then Some (Literal (lit "alse") (JSBool false), stack)
  else if bool_decide (c = 110) then Some (Literal (lit "ull") JSNull, stack)
  else match digit c with
  | Some d => Some (Number (if bool_decide (d = 0) then NZero else NInt) (push_digit zero d false), stack)
  | None => None
  end.

Definition escape (c : N) : option N :=
  if bool_decide (c = 34 ∨ c = 92 ∨ c = 47) then Some c
  else if bool_decide (c = 98) then Some 8
  else if bool_decide (c = 102) then Some 12
  else if bool_decide (c = 110) then Some 10
  else if bool_decide (c = 114) then Some 13
  else if bool_decide (c = 116) then Some 9
  else None.

(** One code unit; [None] is a syntax error. *)
Definition step (st : state) (c : N) : option state :=
  let '(m, stack) := st in
  match m with
  | Value => if is_space c then Some st else step_value stack c
  | ValueOrEnd =>
      if is_space c then Some st
      else if bool_decide (c = 93)
      then match stack with
           | FArray done :: up => complete (JSArray done) up
           | _ => None
           end
      else step_value stack c
  | KeyOrEnd =>
      if is_space c then Some st
      else if bool_decide (c = 125)
      then match stack with
           | FObject done :: up => complete (JSObject done) up
           | _ => None
           end
      else if bool_decide (c = 34) then Some (Str [], stack) else None
  | Key =>
      if is_space c then Some st
      else if bool_decide (c = 34) then Some (Str [], stack) else None
  | Colon =>
      if is_space c then Some st
      else if bool_decide (c = 58) then Some (Value, stack) else None
  | After => step_after stack c
  | Done v => if is_space c then Some st else None
  | Literal rest v =>
      match rest with
      | [] => None
      | c' :: rest' =>
          if bool_decide (c = c')
          then match rest' with
               | [] => complete v stack
               | _ => Some (Literal rest' v, stack)
               end
          else None
      end
  | Str acc =>
      if bool_decide (c = 34) then complete_string acc stack
      else if bool_decide (c = 92) then Some (Escape acc, stack)
      else if bool_decide (c < 32) then None
      else Some (Str (acc ++ [c]), stack)
  | Escape acc =>
      if bool_decide (c = 117) then Some (Unicode acc 0 0, stack)
      else match escape c with
           | Some c' => Some (Str (acc ++ [c']), stack)
           | None => None
           end
  | Unicode acc read code =>
      match hexdigit c with
      | Some h =>
          let code' := 16 * code + h in
          if bool_decide (read = 3%nat) then Some (Str (acc ++ [code']), stack)
          else Some (Unicode acc (S read) code', stack)
      | None => None
      end
  | Number pos acc =>
      match number_step pos acc c with
      | Some (pos', acc') => Some (Number pos' acc', stack)
      | None =>
          if number_ends pos
          then match complete (number_value acc) stack with
               | Some (Done v, _) => if is_space c then Some (Done v, []) else None
               | Some (_, stack') => step_after stack' c
               | None => None
               end
          else None
      end
  end.

Fixpoint run (st : state) (text : jsstring) : option state :=
  match text with
  | [] => Some st
  | c :: rest =>
      match step st c with
      | Some st' => run st' rest
      | None => None
      end
  end.

(** The value at the end of the text, when the text is one. *)
Definition finish (st : state) : option JSValue :=
  match st with
  | (Done v, _) => Some v
  | (Number pos acc, []) => if number_ends pos then Some (number_value acc) else None
  | _ => None
  end.

(** [JSON.parse(text)], without a reviver: the value, or a
    [SyntaxError]. *)
Definition parse (text : jsstring) : Completion JSValue :=
  match run (Value, []) text ≫= finish with
  | Some v => Normal v
  | None => Throw SyntaxError
  end.

End JSON.

(** ** The indexer's rows *)

(** [type Post = { id, rawContent, action }].  [action] is declared a
    [PIP1Post], but [parsePost] tests it at run time, so it is kept as
    the value the response holds ([null] when the indexer has no
    action for the post). *)
Module Post.
Record t := Make { id : jsstring; rawContent : jsstring; action : JSValue }.
End Post.

(** A row of [data.transactions], as the render callback destructures
    it: [{ id, from, posts, timestamp }], with [from.id] the author. *)
Module Account.
Record t := Make { id : jsstring }.
End Account.

Module Transaction.
Record t := Make {
  id : jsstring;
  from : Account.t;
  posts : list Post.t;
  timestamp : Z }.
End Transaction.

(** ** The decoder *)

(** The object literal of the [catch] block. *)
Definition unknown (rawContent : jsstring) : JSValue :=
  JSObject [(lit "type", JSString (lit "unknown")); (lit "text", JSString rawContent)].

(** ['type' in action && action.type == 'microblog'] *)
Definition is_microblog (action : JSValue) : Completion bool :=
  has_type ← js_in (lit "type") action;
  if has_type : bool then get (lit "type") action ≫= eq_microblog else mret false.

(** The [try] block of [parsePost]. *)
Definition parsePost_try (post : Post.t) : Completion JSValue :=
  let action := Post.action post in
  fast ← is_microblog action;
  if fast : bool then mret action
  else
    parsedPost ← JSON.parse (Post.rawContent post);
    mret parsedPost.

Definition parsePost (post : Post.t) : Completion JSValue :=
  try_catch (parsePost_try post)
    (λ err, mret (unknown (Post.rawContent post))).

(** ** Rendering the transactions *)

(** What the callback of [posts.map] returns for one post: the [Box]
    element, with the values it is built from (how the presentation
    layer turns them into links, a date and an image is left out), or
    the falsy value its guard stopped at, which is no element. *)
Inductive Child :=
| PostBox (key : jsstring) (address : jsstring) (transaction : jsstring)
    (timestamp : Z) (type text image : JSValue)
| Falsy (v : JSValue).

(** The author a [Box] names. *)
Definition address_of (c : Child) : option jsstring :=
  match c with
  | PostBox _ address _ _ _ _ _ => Some address
  | Falsy _ => None
  end.

(** The elements among the children of all rows. *)
Definition boxes (rows : list (list Child)) : list Child :=
  filter (λ c, is_Some (address_of c)) (concat rows).

(** What stands in the place of the posts. *)
Inductive View :=
| NoPostsYet
| Posts (rows : list (list Child)).

(** Evaluation of the render expression, with the posts that were
    handed to [parsePost] on the way, in call order. *)
Definition Render (A : Type) : Type := list Post.t * Completion A.

#[global] Instance Render_ret : MRet Render := λ A a, ([], Normal a).
#[global] Instance Render_bind : MBind Render := λ A B f m,
  match m with
  | (calls, Normal a) => let '(calls', r) := f a in (calls ++ calls', r)
  | (calls, Throw e) => (calls, Throw e)
  end.

Definition lift {A} (c : Completion A) : Render A := ([], c).

Definition calls {A} (r : Render A) : list Post.t := r.1.
Definition outcome {A} (r : Render A) : Completion A := r.2.

(** [array.map(callback)]: the elements in order, up to the first
    callback that raises. *)
Fixpoint array_map {A B} (callback : A → Render B) (array : list A) : Render (list B) :=
  match array with
  | [] => mret []
  | x :: rest =>
      y ← callback x;
      ys ← array_map callback rest;
      mret (y :: ys)
  end.

Section Feed.

(** [JACK_CENSORSHIP_LIST] of [lib/constants]: the deny-listed authors. *)
Variable JACK_CENSORSHIP_LIST : list jsstring.

(** [transactions.filter(({ from }) => !JACK_CENSORSHIP_LIST.includes(from.id))] *)
Definition censor (transactions : list Transaction.t) : list Transaction.t :=
  filter (λ tx, Account.id (Transaction.from tx) ∉ JACK_CENSORSHIP_LIST) transactions.

(** [text && type == 'microblog' && (<Box key={post.id}> ... </Box>)],
    up to the values the [Box] is built from: what the children of the
    [Box] call on them ([createURLFromIPFSHash], [format], the explorer
    link) and what React does with them is not part of it. *)
Definition guard (tx : Transaction.t) (post : Post.t) (text image type : JSValue)
  : Completion Child :=
  if ToBoolean text then
    shown ← eq_microblog type;
    if shown : bool
    then mret (PostBox (Post.id post) (Account.id (Transaction.from tx))
                 (Transaction.id tx) (Transaction.timestamp tx) type text image)
    else mret (Falsy (JSBool false))
  else mret (Falsy text).

(** The callback of [posts.map]. *)
Definition render_post (tx : Transaction.t) (post : Post.t) : Render Child :=
  parsedPost ← ([post], parsePost post);
  lift (
    text ← get (lit "text") parsedPost;
    image ← get (lit "image") parsedPost;
    type ← get (lit "type") parsedPost;
    guard tx post text image type).

(** The callback of the outer [map]. *)
Definition render_transaction (tx : Transaction.t) : Render (list Child) :=
  array_map (render_post tx) (Transaction.posts tx).

(** The conditional that shows the posts. *)
Definition render (loading error : bool) (transactions : list Transaction.t)
  : Render View :=
  if negb loading && negb error && bool_decide (length transactions = 0%nat)
  then mret NoPostsYet
  else
    rows ← array_map render_transaction (censor transactions);
    mret (Posts rows).

End Feed.

(** ** The subscription effect

    The body of [useEffect]: it loads the posts, subscribes
    [delayedEventUpdate] to the [NewPost] logs of the contract and
    returns the cleanup.  The world it acts on is the timer table of
    the runtime, the listener of the contract, the variable [interval]
    of the closure, and what it does is recorded with its time: the
    calls of [getPosts] and the actions it dispatches. *)

Module Effect.

Local Open Scope nat_scope.

Inductive ActionType :=
| SET_SUBGRAPH_GETALLPOSTS_RELOAD (needsToReloadGetAllPosts : bool)
| SET_SUBGRAPH_RELOAD_INTERVAL_LOADING (isReloadIntervalLoading : bool).

Inductive Call :=
| getPosts
| dispatch (a : ActionType).

Record World := MkWorld {
  now : nat;
  history : list (nat * Call);
  timers : list (nat * nat);
  next_handle : nat;
  listening : bool;
  interval : option nat }.

Definition initial : World := MkWorld 0 [] [] 1 false None.

Definition call (c : Call) (w : World) : World :=
  MkWorld (now w) (history w ++ [(now w, c)]) (timers w) (next_handle w)
    (listening w) (interval w).

Definition loadPosts (w : World) : World :=
  call (dispatch (SET_SUBGRAPH_RELOAD_INTERVAL_LOADING false))
    (call (dispatch (SET_SUBGRAPH_GETALLPOSTS_RELOAD false))
       (call getPosts w)).

(** [setTimeout(loadPosts, delay)]: the handle (a positive number) and
    the world with the timer pending. *)
Definition setTimeout (delay : nat) (w : World) : nat * World :=
  (next_handle w,
   MkWorld (now w) (history w) (timers w ++ [(next_handle w, now w + delay)])
     (S (next_handle w)) (listening w) (interval w)).

(** [clearTimeout(handle)]; [undefined] names no timer. *)
Definition clearTimeout (handle : option nat) (w : World) : World :=
  match handle with
  | None => w
  | Some h =>
      MkWorld (now w) (history w) (filter (λ tm, tm.1 ≠ h) (timers w))
        (next_handle w) (listening w) (interval w)
  end.

Definition set_listening (b : bool) (w : World) : World :=
  MkWorld (now w) (history w) (timers w) (next_handle w) b (interval w).

Section Subscription.

(** [SUBGRAPH_RELOADING_TIME_IN_MS] of [lib/constants]. *)
Variable SUBGRAPH_RELOADING_TIME_IN_MS : nat.

(** The listener.  The handle that [setTimeout] returns is dropped:
    nothing assigns [interval]. *)
Definition delayedEventUpdate (w : World) : World :=
  let w := call (dispatch (SET_SUBGRAPH_RELOAD_INTERVAL_LOADING true)) w in
  match interval w with
  | None => (setTimeout SUBGRAPH_RELOADING_TIME_IN_MS w).2
  | Some _ => w
  end.

(** The effect; [ready] is [defaultProvider && defaultChainId !== undefined].
    [let interval] starts undefined, [posterContract.on] registers the
    listener. *)
Definition effect (ready : bool) (w : World) : World :=
  let w := loadPosts w in
  if ready
  then MkWorld (now w) (history w) (timers w) (next_handle w) true None
  else w.

(** The cleanup the effect returns. *)
Definition cleanup (w : World) : World :=
  clearTimeout (interval w) (set_listening false w).

(** The provider delivers a log that matches [filter]. *)
Definition NewPost (w : World) : World :=
  if listening w then delayedEventUpdate w else w.

(** The runtime runs the timers due by [t], oldest first (the table is
    in scheduling order, which is the order of the due times: every
    timer has the same delay). *)
Fixpoint fire (t : nat) (pending : list (nat * nat)) (w : World) : World :=
  match pending with
  | [] => w
  | (h, due) :: rest =>
      if bool_decide (due ≤ t)
      then fire t rest
             (loadPosts (MkWorld due (history w) (filter (λ tm, tm.1 ≠ h) (timers w))
                           (next_handle w) (listening w) (interval w)))
      else fire t rest w
  end.

Definition advance (t : nat) (w : World) : World :=
  let w := fire t (timers w) w in
  MkWorld (now w `max` t) (history w) (timers w) (next_handle w)
    (listening w) (interval w).

(** What happens to a mounted component. *)
Inductive Occurrence := Log | Unmount.

Definition occur (o : Occurrence) (w : World) : World :=
  match o with
  | Log => NewPost w
  | Unmount => cleanup w
  end.

(** The occurrences of a trace, each at its time. *)
Fixpoint play (trace : list (nat * Occurrence)) (w : World) : World :=
  match trace with
  | [] => w
  | (t, o) :: rest => play rest (occur o (advance t w))
  end.

(** The times at which [getPosts] was called. *)
Definition fetches (w : World) : list nat :=
  omap (λ c, match c with (t, getPosts) => Some t | _ => None end) (history w).

End Subscription.

End Effect.

(** ** Scenarios *)

(** The JSON string literal of an ASCII string without escapes. *)
Definition quoted (s : string) : jsstring := [34] ++ lit s ++ [34].
Arguments quoted s%_string.

(** The structured payload [{type: microblog, text: t}] as the chain
    stores it. *)
Definition microblog_json (t : string) : jsstring :=
  lit "{" ++ quoted "type" ++ lit ":" ++ quoted "microblog" ++ lit ","
    ++ quoted "text" ++ lit ":" ++ quoted t ++ lit "}".
Arguments microblog_json t%_string.

(** A post of the indexer that has no structured action. *)
Definition raw_post (rawContent : jsstring) : Post.t :=
  Post.Make (lit "0x01") rawContent (JSObject []).

Definition transaction_of (author : jsstring) (posts : list Post.t) : Transaction.t :=
  Transaction.Make (lit "0xabc") (Account.Make author) posts 1650000000.

(** A transaction of [0xGOOD] with the payload [middle] between two
    microblog posts. *)
Definition three_posts (middle : jsstring) : Transaction.t :=
  transaction_of (lit "0xGOOD")
    [raw_post (microblog_json "one"); raw_post middle; raw_post (microblog_json "two")].

(** The structured action [{type: t, text: x}]. *)
Definition action_of (t x : string) : list (jsstring * JSValue) :=
  [(lit "type", JSString (lit t)); (lit "text", JSString (lit x))].
Arguments action_of (t x)%_string.

(** ** Readings of the response, of a child and of a world *)

(** The transaction [tx] with the posts [posts]. *)
Definition with_posts (tx : Transaction.t) (posts : list Post.t) : Transaction.t :=
  Transaction.Make (Transaction.id tx) (Transaction.from tx) posts
    (Transaction.timestamp tx).

(** The values that are no objects. *)
Definition primitive (v : JSValue) : bool :=
  match v with
  | JSArray _ | JSObject _ => false
  | _ => true
  end.

(** A child whose [Box], if it is one, is built from primitives. *)
Definition of_primitives (c : Child) : bool :=
  match c with
  | PostBox _ _ _ _ type text image => primitive type && primitive text && primitive image
  | Falsy _ => true
  end.

(** What a [Box] is labelled with: its key, the author it names, the
    transaction it links to and the time it shows. *)
Definition label_of (c : Child) : option (jsstring * jsstring * jsstring * Z) :=
  match c with
  | PostBox key address transaction timestamp _ _ _ =>
      Some (key, address, transaction, timestamp)
  | Falsy _ => None
  end.

(** The text a [Box] shows. *)
Definition text_of (c : Child) : option JSValue :=
  match c with
  | PostBox _ _ _ _ _ text _ => Some text
  | Falsy _ => None
  end.



(** The value of the last [SET_SUBGRAPH_RELOAD_INTERVAL_LOADING] action
    that was dispatched. *)
Definition last_loading (w : Effect.World) : option bool :=
  last (omap (λ c, match c.2 with
                   | Effect.dispatch (Effect.SET_SUBGRAPH_RELOAD_INTERVAL_LOADING b) => Some b
                   | _ => None
                   end) (Effect.history w)).

(** The times at which the pending timers are due, and their handles. *)
Definition dues (w : Effect.World) : list nat := (Effect.timers w).*2.
Definition handles (w : Effect.World) : list nat := (Effect.timers w).*1.

(** The timer table is well formed: no handle twice, and every handle
    below the next one. *)
Definition timers_wf (w : Effect.World) : Prop :=
  NoDup (handles w) ∧ Forall (λ h, (h < Effect.next_handle w)%nat) (handles w).

(** A trace of logs at the times [ts]. *)
Definition logs (ts : list nat) : list (nat * Effect.Occurrence) :=
  (λ t, (t, Effect.Log)) <$> ts.

(** * Properties *)

(** ** The decoder *)

Lemma is_microblog_absent (action : JSValue) :
  action = JSNull ∨ action = JSUndefined → is_microblog action = Throw TypeError.
Proof. by intros [-> | ->]. Qed.

Lemma is_microblog_object props :
  is_microblog (JSObject props) =
    match own (lit "type") props with
    | Some v => eq_microblog v
    | None => Normal false
    end.
Proof.
  unfold is_microblog, js_in, get.
  destruct (own (lit "type") props) as [v|] eqn:Hown.
  - rewrite bool_decide_eq_true_2 by eauto. done.
  - rewrite bool_decide_eq_false_2 by (by intros [? ?]). done.
Qed.

(** What [parsePost] returns, by the outcome of the test and of the
    parse. *)
Lemma parsePost_cases (post : Post.t) :
  parsePost post =
    Normal
      match is_microblog (Post.action post), JSON.parse (Post.rawContent post) with
      | Normal true, _ => Post.action post
      | Normal false, Normal parsed => parsed
      | _, _ => unknown (Post.rawContent post)
      end.
Proof.
  unfold parsePost, parsePost_try.
  destruct (is_microblog (Post.action post)) as [[|]|]; simpl; try done.
  by destruct (JSON.parse (Post.rawContent post)).
Qed.

(** Every string but ['microblog'] compares unequal to it, and so do
    [undefined], [null], the booleans and the numbers. *)
Lemma eq_microblog_string (s : jsstring) :
  s ≠ lit "microblog" → eq_microblog (JSString s) = Normal false.
Proof. intros Hs. simpl. by rewrite bool_decide_eq_false_2. Qed.

Lemma eq_microblog_primitive (v : JSValue) :
  match v with
  | JSUndefined | JSNull | JSBool _ | JSNumber _ => eq_microblog v = Normal false
  | _ => True
  end.
Proof. by destruct v. Qed.

(** [C6] A post whose action carries the type ['microblog'] is decoded
    to that action, unchanged, whatever its [rawContent]. *)
Theorem parsePost_fast_path (id rawContent : jsstring) (props : list (jsstring * JSValue)) :
  own (lit "type") props = Some (JSString (lit "microblog")) →
  parsePost (Post.Make id rawContent (JSObject props)) = Normal (JSObject props).
Proof.
  intros Htype. rewrite parsePost_cases. simpl Post.action.
  by rewrite is_microblog_object, Htype.
Qed.

(** The action [{type: 'microblog', text: 'hi'}] comes back as it is,
    next to a [rawContent] that is valid JSON of another post. *)
Lemma parsePost_fast_path_hi :
  own (lit "type") (action_of "microblog" "hi") = Some (JSString (lit "microblog")) ∧
  parsePost (Post.Make (lit "0x01") (microblog_json "bye")
               (JSObject (action_of "microblog" "hi")))
    = Normal (JSObject (action_of "microblog" "hi")).
Proof.
  split; [reflexivity|].
  apply (parsePost_fast_path (lit "0x01") (microblog_json "bye")). reflexivity.
Defined.

(** An action whose type is the array [['microblog']] is returned as
    it is: [==] converts the array to the string ['microblog'].  An
    action whose type is an object with a property [toString] makes
    the comparison raise, and the post falls back without a look at
    its [rawContent], here a well-formed payload. *)
Lemma parsePost_loose_type :
  parsePost (Post.Make (lit "0x01") (microblog_json "hello")
               (JSObject [(lit "type", JSArray [JSString (lit "microblog")]);
                          (lit "text", JSString (lit "stale"))]))
    = Normal (JSObject [(lit "type", JSArray [JSString (lit "microblog")]);
                        (lit "text", JSString (lit "stale"))]) ∧
  parsePost (Post.Make (lit "0x01") (microblog_json "hello")
               (JSObject [(lit "type", JSObject [(lit "toString", JSBool true)]);
                          (lit "text", JSString (lit "stale"))]))
    = Normal (JSObject [(lit "type", JSString (lit "unknown"));
                        (lit "text", JSString (microblog_json "hello"))]) ∧
  JSON.parse (microblog_json "hello")
    = Normal (JSObject [(lit "type", JSString (lit "microblog"));
                        (lit "text", JSString (lit "hello"))]).
Proof. by split_and!. Qed.

(** [C8] The fast path is taken exactly when [action.type ==
    'microblog'] holds.  When the comparison is false, as it is for
    every string but ['microblog'] and for [undefined], [null], the
    booleans and the numbers, the action is ignored and the post is
    decoded from its [rawContent]: to the parsed value or, when it is
    no JSON, to [{type: 'unknown', text: rawContent}].  When the
    comparison holds the action is returned; when it raises, the post
    is decoded to [{type: 'unknown', text: rawContent}]. *)
Theorem parsePost_other_type (id rawContent : jsstring)
    (props : list (jsstring * JSValue)) (type : JSValue) :
  own (lit "type") props = Some type →
  (eq_microblog type = Normal false →
     parsePost (Post.Make id rawContent (JSObject props)) =
       Normal match JSON.parse rawContent with
              | Normal parsed => parsed
              | Throw _ =>
                  JSObject [(lit "type", JSString (lit "unknown"));
                            (lit "text", JSString rawContent)]
              end) ∧
  (eq_microblog type = Normal true →
     parsePost (Post.Make id rawContent (JSObject props)) = Normal (JSObject props)) ∧
  (∀ e, eq_microblog type = Throw e →
     parsePost (Post.Make id rawContent (JSObject props)) =
       Normal (JSObject [(lit "type", JSString (lit "unknown"));
                         (lit "text", JSString rawContent)])) ∧
  (∀ s, type = JSString s → s ≠ lit "microblog" → eq_microblog type = Normal false) ∧
  (type = JSUndefined ∨ type = JSNull ∨ (∃ b, type = JSBool b) ∨ (∃ d, type = JSNumber d) →
     eq_microblog type = Normal false).
Proof.
  intros Htype. rewrite parsePost_cases. simpl Post.action.
  rewrite is_microblog_object, Htype. split_and!.
  - by intros ->.
  - by intros ->.
  - by intros e ->.
  - intros s -> Hs. by apply eq_microblog_string.
  - intros [-> | [-> | [[b ->] | [d ->]]]]; done.
Qed.

(** An action of type ['unknown']: the structured payload is parsed,
    and a payload that is no JSON falls back. *)
Lemma parsePost_other_type_unknown :
  (own (lit "type") (action_of "unknown" "stale") = Some (JSString (lit "unknown")) ∧
   eq_microblog (JSString (lit "unknown")) = Normal false) ∧
  parsePost (Post.Make (lit "0x01") (microblog_json "hello")
               (JSObject (action_of "unknown" "stale")))
    = Normal (JSObject (action_of "microblog" "hello")) ∧
  parsePost (Post.Make (lit "0x01") (lit "hello")
               (JSObject (action_of "unknown" "stale")))
    = Normal (JSObject [(lit "type", JSString (lit "unknown"));
                        (lit "text", JSString (lit "hello"))]).
Proof.
  split; [by split|]. split.
  - exact (proj1 (parsePost_other_type (lit "0x01") (microblog_json "hello")
             (action_of "unknown" "stale") (JSString (lit "unknown")) eq_refl)
             eq_refl).
  - exact (proj1 (parsePost_other_type (lit "0x01") (lit "hello")
             (action_of "unknown" "stale") (JSString (lit "unknown")) eq_refl)
             eq_refl).
Defined.

(** [C10] With no action ([null] or [undefined]) the test ['type' in
    action] raises, the handler takes over, and the post is decoded to
    [{type: 'unknown', text: rawContent}] for every [rawContent]. *)
Theorem parsePost_action_absent (id rawContent : jsstring) :
  js_in (lit "type") JSNull = Throw TypeError ∧
  js_in (lit "type") JSUndefined = Throw TypeError ∧
  parsePost (Post.Make id rawContent JSNull)
    = Normal (JSObject [(lit "type", JSString (lit "unknown"));
                        (lit "text", JSString rawContent)]) ∧
  parsePost (Post.Make id rawContent JSUndefined)
    = Normal (JSObject [(lit "type", JSString (lit "unknown"));
                        (lit "text", JSString rawContent)]).
Proof. repeat split. Qed.

(** A payload that is valid JSON is returned as parsed, without a look
    at its shape: the array [[]] is decoded to itself. *)
Lemma parsePost_wrong_shape :
  parsePost (raw_post (lit "[]")) = Normal (JSArray []) ∧
  parsePost (raw_post (lit "[]"))
    ≠ Normal (JSObject [(lit "type", JSString (lit "unknown"));
                        (lit "text", JSString (lit "[]"))]).
Proof. split; [reflexivity | discriminate]. Qed.

(** [C2] No exception escapes [parsePost].  When the test of the
    action raises, or when it is false and [rawContent] is no JSON, the
    post is decoded to [{type: 'unknown', text: rawContent}], an object
    of these two properties, with the text as it came and no optional
    field; when the test is false and [rawContent] is JSON, the parsed
    value is returned as it is. *)
Theorem parsePost_total (post : Post.t) :
  (∃ decoded, parsePost post = Normal decoded) ∧
  (∀ e, is_microblog (Post.action post) = Throw e →
     parsePost post
       = Normal (JSObject [(lit "type", JSString (lit "unknown"));
                           (lit "text", JSString (Post.rawContent post))])) ∧
  (∀ e, is_microblog (Post.action post) = Normal false →
     JSON.parse (Post.rawContent post) = Throw e →
     parsePost post
       = Normal (JSObject [(lit "type", JSString (lit "unknown"));
                           (lit "text", JSString (Post.rawContent post))])) ∧
  (∀ parsed, is_microblog (Post.action post) = Normal false →
     JSON.parse (Post.rawContent post) = Normal parsed →
     parsePost post = Normal parsed) ∧
  (∀ rawContent,
     get (lit "type") (JSObject [(lit "type", JSString (lit "unknown"));
                                 (lit "text", JSString rawContent)])
       = Normal (JSString (lit "unknown")) ∧
     get (lit "text") (JSObject [(lit "type", JSString (lit "unknown"));
                                 (lit "text", JSString rawContent)])
       = Normal (JSString rawContent) ∧
     get (lit "image") (JSObject [(lit "type", JSString (lit "unknown"));
                                  (lit "text", JSString rawContent)])
       = Normal JSUndefined ∧
     get (lit "replyTo") (JSObject [(lit "type", JSString (lit "unknown"));
                                    (lit "text", JSString rawContent)])
       = Normal JSUndefined).
Proof.
  rewrite parsePost_cases. split_and!.
  - eauto.
  - by intros e ->.
  - by intros e -> ->.
  - by intros parsed -> ->.
  - done.
Qed.

(** ** The render *)

Lemma calls_bind {A B} (m : Render A) (f : A → Render B) :
  calls (m ≫= f) =
    calls m ++ match outcome m with
               | Normal a => calls (f a)
               | Throw _ => []
               end.
Proof.
  destruct m as [log [a|e]]; simpl.
  - unfold mbind, Render_bind. by destruct (f a).
  - by rewrite app_nil_r.
Qed.

Lemma outcome_bind {A B} (m : Render A) (f : A → Render B) :
  outcome (m ≫= f) = outcome m ≫= (λ a, outcome (f a)).
Proof.
  destruct m as [log [a|e]]; simpl; [|done].
  by destruct (f a).
Qed.

Lemma outcome_array_map_cons {A B} (f : A → Render B) x l :
  outcome (array_map f (x :: l)) =
    (y ← outcome (f x); ys ← outcome (array_map f l); mret (y :: ys)).
Proof.
  simpl. rewrite outcome_bind. destruct (outcome (f x)) as [y|]; [|done].
  simpl. rewrite outcome_bind. by destruct (outcome (array_map f l)).
Qed.

Lemma outcome_array_map_app {A B} (f : A → Render B) l1 l2 :
  outcome (array_map f (l1 ++ l2)) =
    (xs ← outcome (array_map f l1); ys ← outcome (array_map f l2); mret (xs ++ ys)).
Proof.
  induction l1 as [|x l1 IH]; simpl app.
  - simpl. by destruct (outcome (array_map f l2)).
  - rewrite !outcome_array_map_cons, IH.
    destruct (outcome (f x)); [|done]. simpl.
    destruct (outcome (array_map f l1)); [|done]. simpl.
    by destruct (outcome (array_map f l2)).
Qed.

(** The results of [map] are those of its callback, element by
    element. *)
Lemma outcome_array_map_Forall2 {A B} (f : A → Render B) l ys :
  outcome (array_map f l) = Normal ys →
  Forall2 (λ x y, outcome (f x) = Normal y) l ys.
Proof.
  revert ys. induction l as [|x l IH]; intros ys.
  - intros [= <-]. constructor.
  - rewrite outcome_array_map_cons.
    destruct (outcome (f x)) as [y|] eqn:Hx; [|done]. simpl.
    destruct (outcome (array_map f l)) as [ys'|]; [|done]. simpl.
    intros [= <-]. constructor; auto.
Qed.

(** [map] calls its callback on elements of the array only. *)
Lemma calls_array_map {A B} (f : A → Render B) l post :
  post ∈ calls (array_map f l) → ∃ x, x ∈ l ∧ post ∈ calls (f x).
Proof.
  induction l as [|x l IH]; simpl.
  - by intros ?%elem_of_nil.
  - rewrite calls_bind. intros [Hx | Hrest]%elem_of_app.
    + exists x. split; [left | done].
    + destruct (outcome (f x)); [|by apply elem_of_nil in Hrest].
      rewrite calls_bind in Hrest. apply elem_of_app in Hrest as [Hl | Hnil].
      * destruct (IH Hl) as (x' & ? & ?). exists x'. split; [by right | done].
      * destruct (outcome (array_map f l)); by apply elem_of_nil in Hnil.
Qed.

Lemma calls_render_post tx post : calls (render_post tx post) = [post].
Proof.
  unfold render_post. rewrite calls_bind. simpl.
  by destruct (parsePost post).
Qed.

Lemma outcome_render_post tx post :
  outcome (render_post tx post) =
    (parsedPost ← parsePost post;
     text ← get (lit "text") parsedPost;
     image ← get (lit "image") parsedPost;
     type ← get (lit "type") parsedPost;
     guard tx post text image type).
Proof. unfold render_post. by rewrite outcome_bind. Qed.

(** The guard yields a [Box] exactly for a truthy text with a type
    equal to ['microblog'], and the [Box] names the author of the
    transaction. *)
Lemma guard_PostBox tx post text image type key address transaction timestamp type' text' image' :
  guard tx post text image type
    = Normal (PostBox key address transaction timestamp type' text' image') →
  ToBoolean text = true ∧ eq_microblog type = Normal true ∧
  address = Account.id (Transaction.from tx) ∧ type' = type ∧ text' = text.
Proof.
  unfold guard. destruct (ToBoolean text); [|done].
  destruct (eq_microblog type) as [[|]|]; simpl; [|done..].
  by intros [= <- <- <- <- <- <- <-].
Qed.

Lemma render_post_address tx post child :
  outcome (render_post tx post) = Normal child →
  address_of child = None ∨ address_of child = Some (Account.id (Transaction.from tx)).
Proof.
  rewrite outcome_render_post.
  destruct (parsePost post) as [parsed|]; [simpl|done].
  destruct (get (lit "text") parsed) as [text|]; [simpl|done].
  destruct (get (lit "image") parsed) as [image|]; [simpl|done].
  destruct (get (lit "type") parsed) as [type|]; [simpl|done].
  destruct child as [key address transaction timestamp type' text' image'|v];
    [|by left].
  intros (_ & _ & -> & _)%guard_PostBox. by right.
Qed.

(** [C9] A post becomes a [Box] only when its decoded text is truthy
    and its decoded type equals ['microblog'] (and then it does); a
    post whose decoded text is the empty string yields that empty
    string, no element, whatever its type. *)
Theorem render_post_guard (tx : Transaction.t) (post : Post.t) (decoded text type : JSValue) :
  parsePost post = Normal decoded →
  get (lit "text") decoded = Normal text →
  get (lit "type") decoded = Normal type →
  (∀ child, outcome (render_post tx post) = Normal child →
     is_Some (address_of child) →
     ToBoolean text = true ∧ eq_microblog type = Normal true) ∧
  (ToBoolean text = true → eq_microblog type = Normal true →
     ∃ child, outcome (render_post tx post) = Normal child ∧
              is_Some (address_of child)) ∧
  (text = JSString [] → outcome (render_post tx post) = Normal (Falsy (JSString []))).
Proof.
  intros Hdecoded Htext Htype. rewrite outcome_render_post, Hdecoded. simpl.
  rewrite Htext. simpl.
  assert (∃ image, get (lit "image") decoded = Normal image) as [image ->].
  { destruct decoded; simpl in *; eauto; discriminate. }
  simpl. rewrite Htype. simpl. split; [|split].
  - intros child Hchild Hbox.
    destruct child; [|by destruct Hbox].
    by apply guard_PostBox in Hchild as (? & ? & _).
  - intros Htruthy Heq. unfold guard. rewrite Htruthy, Heq. simpl. eauto.
  - by intros ->.
Qed.

(** The payload [{type: microblog, text: empty}]: decoded to type
    ['microblog'] and an empty text, it yields no element. *)
Lemma render_post_guard_empty_text :
  (parsePost (raw_post (microblog_json "")) = Normal (JSObject (action_of "microblog" "")) ∧
   get (lit "text") (JSObject (action_of "microblog" "")) = Normal (JSString []) ∧
   get (lit "type") (JSObject (action_of "microblog" "")) = Normal (JSString (lit "microblog"))) ∧
  outcome (render_post (transaction_of (lit "0xGOOD") []) (raw_post (microblog_json "")))
    = Normal (Falsy (JSString [])).
Proof.
  split; [by repeat split|].
  exact (proj2 (proj2 (render_post_guard (transaction_of (lit "0xGOOD") [])
    (raw_post (microblog_json "")) (JSObject (action_of "microblog" ""))
    (JSString []) (JSString (lit "microblog")) eq_refl eq_refl eq_refl)) eq_refl).
Defined.

(** ** The author filter *)

Section Censorship.

Variable deny : list jsstring.

Lemma elem_of_censor tx transactions :
  tx ∈ censor deny transactions ↔
    (Account.id (Transaction.from tx) ∉ deny) ∧ (tx ∈ transactions).
Proof. unfold censor. by rewrite list_elem_of_filter. Qed.

(** [C7] Filtering what has been filtered changes nothing; the
    transactions that are kept are those of authors off the list, in
    the order they came in. *)
Theorem censor_idempotent_stable (transactions : list Transaction.t) :
  censor deny (censor deny transactions) = censor deny transactions ∧
  sublist (censor deny transactions) transactions ∧
  (∀ tx, tx ∈ transactions → Account.id (Transaction.from tx) ∉ deny →
     tx ∈ censor deny transactions).
Proof.
  split; [|split].
  - unfold censor. rewrite list_filter_filter.
    apply list_filter_iff. intros tx. tauto.
  - apply sublist_filter.
  - intros tx Hin Hfree. by apply elem_of_censor.
Qed.

(** The posts that reach [parsePost] are posts of transactions that
    passed the filter. *)
Lemma calls_render loading error transactions post :
  post ∈ calls (render deny loading error transactions) →
  ∃ tx, tx ∈ censor deny transactions ∧ post ∈ Transaction.posts tx.
Proof.
  unfold render.
  destruct (negb loading && negb error && bool_decide (length transactions = 0%nat)).
  - by intros ?%elem_of_nil.
  - rewrite calls_bind. intros [Hmap | Hret]%elem_of_app.
    + apply calls_array_map in Hmap as (tx & Htx & Hpost).
      apply calls_array_map in Hpost as (post' & Hpost' & Hcall).
      rewrite calls_render_post in Hcall. apply list_elem_of_singleton in Hcall as ->.
      eauto.
    + destruct (outcome _); by apply elem_of_nil in Hret.
Qed.

(** The elements that are rendered come from transactions that passed
    the filter. *)
Lemma children_render loading error transactions rows row child :
  outcome (render deny loading error transactions) = Normal (Posts rows) →
  row ∈ rows → child ∈ row →
  ∃ tx post, tx ∈ censor deny transactions ∧ post ∈ Transaction.posts tx ∧
    outcome (render_post tx post) = Normal child.
Proof.
  unfold render.
  destruct (negb loading && negb error && bool_decide (length transactions = 0%nat));
    [done|].
  rewrite outcome_bind.
  destruct (outcome (array_map _ _)) as [rows'|] eqn:Hrows; [simpl|done].
  intros [= ->] Hrow Hchild.
  apply outcome_array_map_Forall2 in Hrows.
  apply list_elem_of_lookup in Hrow as [i Hi].
  destruct (Forall2_lookup_r _ _ _ _ _ Hrows Hi) as (tx & Htx & Hrender).
  apply outcome_array_map_Forall2 in Hrender.
  apply list_elem_of_lookup in Hchild as [j Hj].
  destruct (Forall2_lookup_r _ _ _ _ _ Hrender Hj) as (post & Hpost & Hpost').
  exists tx, post. eauto using list_elem_of_lookup_2.
Qed.

End Censorship.

(** The render raises nothing but a [TypeError]. *)
Lemma get_raises k v e : get k v = Throw e → e = TypeError.
Proof. destruct v; simpl; congruence. Qed.

Lemma eq_microblog_raises v e : eq_microblog v = Throw e → e = TypeError.
Proof.
  destruct v; simpl; try congruence;
    match goal with |- context [if ?b then _ else _] => destruct b end;
    congruence.
Qed.

Lemma guard_raises tx post text image type e :
  guard tx post text image type = Throw e → e = TypeError.
Proof.
  unfold guard. destruct (ToBoolean text); [|done].
  destruct (eq_microblog type) as [[|]|e'] eqn:Heq; simpl; try done.
  intros [= <-]. by apply eq_microblog_raises in Heq.
Qed.

Lemma render_post_raises tx post e :
  outcome (render_post tx post) = Throw e → e = TypeError.
Proof.
  rewrite outcome_render_post, parsePost_cases. simpl.
  match goal with |- context [get _ ?v] => generalize v end. intros decoded.
  destruct (get (lit "text") decoded) as [text|e1] eqn:H1; simpl;
    [|intros [= <-]; by apply get_raises in H1].
  destruct (get (lit "image") decoded) as [image|e2] eqn:H2; simpl;
    [|intros [= <-]; by apply get_raises in H2].
  destruct (get (lit "type") decoded) as [type|e3] eqn:H3; simpl;
    [|intros [= <-]; by apply get_raises in H3].
  apply guard_raises.
Qed.

Lemma array_map_raises {A B} (f : A → Render B) (l : list A) (x : A) :
  (∀ y e, outcome (f y) = Throw e → e = TypeError) →
  x ∈ l → outcome (f x) = Throw TypeError →
  outcome (array_map f l) = Throw TypeError.
Proof.
  intros Hf Hin Hx. induction l as [|y l IH]; [by apply elem_of_nil in Hin|].
  rewrite outcome_array_map_cons.
  destruct (outcome (f y)) as [b|e] eqn:Hy; simpl.
  - apply elem_of_cons in Hin as [-> | Hin]; [congruence|].
    by rewrite (IH Hin).
  - by rewrite (Hf y e Hy).
Qed.

(** A post that is decoded to [null] (its payload is the JSON text
    [null]) makes the destructuring of the render callback raise, and
    with it the whole render, whatever the other posts are. *)
Theorem render_null_payload_raises (deny : list jsstring) (loading error : bool)
    (transactions : list Transaction.t) (tx : Transaction.t) (post : Post.t) :
  tx ∈ transactions →
  Account.id (Transaction.from tx) ∉ deny →
  post ∈ Transaction.posts tx →
  parsePost post = Normal JSNull →
  outcome (render deny loading error transactions) = Throw TypeError.
Proof.
  intros Htx Hfree Hpost Hnull. unfold render.
  destruct transactions as [|tx0 rest]; [by apply elem_of_nil in Htx|].
  rewrite !andb_false_r, outcome_bind.
  rewrite (array_map_raises render_transaction _ tx); [done| |by apply elem_of_censor|].
  - intros y e. revert e. unfold render_transaction.
    induction (Transaction.posts y) as [|p ps IH]; intros e; [done|].
    rewrite outcome_array_map_cons.
    destruct (outcome (render_post y p)) as [c|e'] eqn:Hp; simpl.
    + destruct (outcome (array_map (render_post y) ps)) as [cs|e'']; [done|].
      simpl. intros [= <-]. by apply IH.
    + intros [= <-]. by apply render_post_raises in Hp.
  - apply (array_map_raises (render_post tx) _ post); [|done|].
    + intros y e. apply render_post_raises.
    + by rewrite outcome_render_post, Hnull.
Qed.

(** The payload [null] between two microblog posts of [0xGOOD]. *)
Lemma render_null_payload_between_posts :
  (three_posts (lit "null") ∈ [three_posts (lit "null")]) ∧
  (Account.id (Transaction.from (three_posts (lit "null"))) ∉ [lit "0xBAD"]) ∧
  (raw_post (lit "null") ∈ Transaction.posts (three_posts (lit "null"))) ∧
  parsePost (raw_post (lit "null")) = Normal JSNull ∧
  outcome (render [lit "0xBAD"] false false [three_posts (lit "null")])
  = Throw TypeError.
Proof.
  assert (Account.id (Transaction.from (three_posts (lit "null"))) ∉ [lit "0xBAD"])
    as Hfree.
  { intros Hin. apply list_elem_of_singleton in Hin. discriminate Hin. }
  assert (raw_post (lit "null") ∈ Transaction.posts (three_posts (lit "null")))
    as Hpost by apply list_elem_of_further, list_elem_of_here.
  split; [apply list_elem_of_here|]. split; [exact Hfree|].
  split; [exact Hpost|]. split; [reflexivity|].
  exact (render_null_payload_raises [lit "0xBAD"] false false
           [three_posts (lit "null")] (three_posts (lit "null"))
           (raw_post (lit "null")) (list_elem_of_here _ _) Hfree Hpost eq_refl).
Defined.

(** [C5] A deny-listed author has no transaction in the filtered
    list, whatever the transactions and their order; the posts handed
    to [parsePost] and the elements that are rendered come from other
    authors; and a response that holds one transaction of that author
    renders an empty list of posts. *)
Theorem censored_author_never_rendered (deny : list jsstring) (A : jsstring)
    (loading error : bool) (transactions : list Transaction.t) :
  A ∈ deny →
  (∀ tx, tx ∈ censor deny transactions → Account.id (Transaction.from tx) ≠ A) ∧
  (∀ post, post ∈ calls (render deny loading error transactions) →
     ∃ tx, tx ∈ transactions ∧ Account.id (Transaction.from tx) ≠ A ∧
           post ∈ Transaction.posts tx) ∧
  (∀ rows row child,
     outcome (render deny loading error transactions) = Normal (Posts rows) →
     row ∈ rows → child ∈ row → address_of child ≠ Some A) ∧
  (∀ tx, Account.id (Transaction.from tx) = A →
     render deny loading error [tx] = ([], Normal (Posts []))).
Proof.
  intros HA.
  assert (∀ tx, tx ∈ censor deny transactions →
            Account.id (Transaction.from tx) ≠ A) as Hkept.
  { intros tx [Hfree _]%elem_of_censor Heq. apply Hfree. by rewrite Heq. }
  split; [done|]. split; [|split].
  - intros post (tx & Htx & Hpost)%calls_render.
    exists tx. split; [by apply elem_of_censor in Htx as [_ ?]|]. auto.
  - intros rows row child Hrows Hrow Hchild.
    destruct (children_render _ _ _ _ _ _ _ Hrows Hrow Hchild)
      as (tx & post & Htx & _ & Hrender).
    apply render_post_address in Hrender as [-> | ->]; [done|].
    intros [= Heq]. by apply (Hkept tx).
  - intros tx Htx. unfold render, censor.
    rewrite !andb_false_r.
    rewrite filter_cons_False, filter_nil; [done|].
    intros Hfree. apply Hfree. simpl. by rewrite Htx.
Qed.

(** The indexer returns one transaction of the deny-listed [0xBAD],
    with a well-formed microblog post: nothing is decoded, and the
    list of posts is empty. *)
Lemma censored_author_0xBAD :
  lit "0xBAD" ∈ [lit "0xBAD"] ∧
  render [lit "0xBAD"] false false
    [transaction_of (lit "0xBAD") [raw_post (microblog_json "hello")]]
  = ([], Normal (Posts [])).
Proof.
  split; [apply list_elem_of_here|].
  exact (proj2 (proj2 (proj2 (censored_author_never_rendered [lit "0xBAD"]
    (lit "0xBAD") false false [] (list_elem_of_here _ _))))
    (transaction_of (lit "0xBAD") [raw_post (microblog_json "hello")]) eq_refl).
Defined.

(** The post [hello] of an author off the list: decoded to
    [{type: 'unknown', text: 'hello'}], it renders as [false], which is
    no element. *)
Lemma hello_post_not_rendered :
  parsePost (raw_post (lit "hello"))
    = Normal (JSObject [(lit "type", JSString (lit "unknown"));
                        (lit "text", JSString (lit "hello"))]) ∧
  render [lit "0xBAD"] false false
    [transaction_of (lit "0xGOOD") [raw_post (lit "hello")]]
  = ([raw_post (lit "hello")], Normal (Posts [[Falsy (JSBool false)]])) ∧
  boxes [[Falsy (JSBool false)]] = [].
Proof. repeat split. Qed.

Lemma render_post_fallback tx post e :
  parsePost_try post = Throw e →
  outcome (render_post tx post) =
    Normal (Falsy (if bool_decide (Post.rawContent post = [])
                   then JSString [] else JSBool false)).
Proof.
  intros Hthrow. rewrite outcome_render_post. unfold parsePost.
  rewrite Hthrow. simpl. unfold guard. simpl.
  by destruct (Post.rawContent post).
Qed.

Lemma array_map_ext {A B} (f g : A → Render B) l :
  (∀ x, f x = g x) → array_map f l = array_map g l.
Proof. intros Hfg. induction l as [|x l IH]; [done|]. simpl. by rewrite Hfg, IH. Qed.

(** The render of a response, by the transactions before and after
    one that passes the filter. *)
Lemma render_split deny loading error earlier later tx posts :
  Account.id (Transaction.from tx) ∉ deny →
  outcome (render deny loading error (earlier ++ with_posts tx posts :: later)) =
    (rows1 ← outcome (array_map render_transaction (censor deny earlier));
     row ← outcome (array_map (render_post tx) posts);
     rows2 ← outcome (array_map render_transaction (censor deny later));
     mret (Posts (rows1 ++ row :: rows2))).
Proof.
  intros Hfree. unfold render.
  rewrite (bool_decide_eq_false_2 (length _ = 0%nat))
    by (rewrite length_app; simpl; lia).
  rewrite !andb_false_r, outcome_bind. unfold censor.
  rewrite filter_app, filter_cons_True by done.
  rewrite outcome_array_map_app, outcome_array_map_cons.
  unfold render_transaction at 2. simpl Transaction.posts.
  rewrite (array_map_ext (render_post (with_posts tx posts)) (render_post tx)) by done.
  repeat match goal with
         | |- context [outcome (array_map ?f ?l)] =>
             destruct (outcome (array_map f l)); simpl
         end; done.
Qed.

(** [C3] The post [hello] of an author off the list is decoded to
    [{type: 'unknown', text: 'hello'}] and yields [false]: the guard
    shows posts of type ['microblog'] only.  A post on which the [try]
    block of [parsePost] raises is decoded to [{type: 'unknown', text:
    rawContent}] and yields a falsy value in its place; the other
    posts of its transaction and the other transactions of the
    response yield what they yield in the response without it. *)
Theorem decoding_failure_keeps_other_posts (deny : list jsstring)
    (loading error : bool) (earlier later : list Transaction.t) (tx : Transaction.t)
    (before after : list Post.t) (post : Post.t) (e : JSError) :
  Account.id (Transaction.from tx) ∉ deny →
  parsePost_try post = Throw e →
  (parsePost (raw_post (lit "hello"))
     = Normal (JSObject [(lit "type", JSString (lit "unknown"));
                         (lit "text", JSString (lit "hello"))]) ∧
   render deny loading error [with_posts tx [raw_post (lit "hello")]]
     = ([raw_post (lit "hello")], Normal (Posts [[Falsy (JSBool false)]]))) ∧
  parsePost post
    = Normal (JSObject [(lit "type", JSString (lit "unknown"));
                        (lit "text", JSString (Post.rawContent post))]) ∧
  outcome (render deny loading error
             (earlier ++ with_posts tx (before ++ post :: after) :: later)) =
    (rows1 ← outcome (array_map render_transaction (censor deny earlier));
     xs ← outcome (array_map (render_post tx) before);
     ys ← outcome (array_map (render_post tx) after);
     rows2 ← outcome (array_map render_transaction (censor deny later));
     mret (Posts (rows1 ++
                  (xs ++ Falsy (if bool_decide (Post.rawContent post = [])
                                then JSString [] else JSBool false) :: ys)
                  :: rows2))) ∧
  outcome (render deny loading error
             (earlier ++ with_posts tx (before ++ after) :: later)) =
    (rows1 ← outcome (array_map render_transaction (censor deny earlier));
     xs ← outcome (array_map (render_post tx) before);
     ys ← outcome (array_map (render_post tx) after);
     rows2 ← outcome (array_map render_transaction (censor deny later));
     mret (Posts (rows1 ++ (xs ++ ys) :: rows2))).
Proof.
  intros Hfree Hthrow. split_and!.
  - reflexivity.
  - unfold render, censor. rewrite !andb_false_r.
    by rewrite filter_cons_True, filter_nil.
  - unfold parsePost. by rewrite Hthrow.
  - rewrite render_split by done.
    rewrite outcome_array_map_app, outcome_array_map_cons.
    rewrite (render_post_fallback tx post e Hthrow).
    repeat match goal with
           | |- context [outcome (array_map ?f ?l)] =>
               destruct (outcome (array_map f l)); simpl
           end; done.
  - rewrite render_split by done. rewrite outcome_array_map_app.
    repeat match goal with
           | |- context [outcome (array_map ?f ?l)] =>
               destruct (outcome (array_map f l)); simpl
           end; done.
Qed.

(** The post [hello] between two microblog posts of [0xGOOD], after a
    transaction of one post and before a transaction of [0xBAD]: the
    three microblog posts are shown, with [false] in the place of
    [hello]. *)
Lemma decoding_failure_between_posts :
  ((Account.id (Transaction.from (transaction_of (lit "0xGOOD") [])) ∉ [lit "0xBAD"]) ∧
   parsePost_try (raw_post (lit "hello")) = Throw SyntaxError) ∧
  outcome (render [lit "0xBAD"] false false
             ([transaction_of (lit "0xGOOD") [raw_post (microblog_json "zero")]] ++
              with_posts (transaction_of (lit "0xGOOD") [])
                ([raw_post (microblog_json "one")] ++
                 raw_post (lit "hello") :: [raw_post (microblog_json "two")])
              :: [transaction_of (lit "0xBAD") [raw_post (microblog_json "three")]]))
  = Normal (Posts
      [[PostBox (lit "0x01") (lit "0xGOOD") (lit "0xabc") 1650000000
          (JSString (lit "microblog")) (JSString (lit "zero")) JSUndefined];
       [PostBox (lit "0x01") (lit "0xGOOD") (lit "0xabc") 1650000000
          (JSString (lit "microblog")) (JSString (lit "one")) JSUndefined;
        Falsy (JSBool false);
        PostBox (lit "0x01") (lit "0xGOOD") (lit "0xabc") 1650000000
          (JSString (lit "microblog")) (JSString (lit "two")) JSUndefined]]).
Proof.
  assert (Account.id (Transaction.from (transaction_of (lit "0xGOOD") []))
            ∉ [lit "0xBAD"]) as Hfree.
  { intros Hin. apply list_elem_of_singleton in Hin. discriminate Hin. }
  split; [by split|].
  exact (proj1 (proj2 (proj2 (decoding_failure_keeps_other_posts [lit "0xBAD"]
    false false [transaction_of (lit "0xGOOD") [raw_post (microblog_json "zero")]]
    [transaction_of (lit "0xBAD") [raw_post (microblog_json "three")]]
    (transaction_of (lit "0xGOOD") [])
    [raw_post (microblog_json "one")] [raw_post (microblog_json "two")]
    (raw_post (lit "hello")) SyntaxError Hfree eq_refl)))).
Defined.

(** ** The subscription effect *)

Section Scheduling.

Import Effect.
Local Open Scope nat_scope.

Variable D : nat.

Lemma interval_loadPosts w : interval (loadPosts w) = interval w.
Proof. reflexivity. Qed.

Lemma interval_fire t pending w : interval (fire t pending w) = interval w.
Proof.
  revert w. induction pending as [|[h due] pending IH]; intros w; simpl; [done|].
  case_bool_decide; by rewrite IH.
Qed.

Lemma interval_occur o w : interval (occur D o w) = interval w.
Proof.
  destruct o; simpl.
  - unfold NewPost, delayedEventUpdate. destruct (listening w); [|done].
    destruct w as [? ? ? ? ? [h|]]; reflexivity.
  - destruct w as [? ? ? ? ? [h|]]; reflexivity.
Qed.

(** Nothing assigns [interval]: it is undefined at every point of the
    life of a mounted component. *)
Lemma interval_never_assigned ready trace :
  interval (play D trace (effect ready initial)) = None.
Proof.
  assert (interval (effect ready initial) = None) as Hinit by (by destruct ready).
  revert Hinit. generalize (effect ready initial).
  induction trace as [|[t o] trace IH]; intros w Hw; simpl; [done|].
  apply IH. rewrite interval_occur. unfold advance. simpl.
  by rewrite interval_fire.
Qed.

(** So every log that is delivered starts a timer of its own. *)
Lemma NewPost_schedules w :
  listening w = true → interval w = None →
  timers (NewPost D w) = timers w ++ [(next_handle w, now w + D)].
Proof.
  intros Hl Hi. unfold NewPost, delayedEventUpdate. rewrite Hl. simpl.
  by rewrite Hi.
Qed.

(** And the cleanup clears none. *)
Lemma cleanup_timers w :
  interval w = None → timers (cleanup w) = timers w.
Proof. intros Hi. unfold cleanup. simpl. by rewrite Hi. Qed.

End Scheduling.

(** [C1] Logs at 0, 1 and 2 with a delay of 12: after the load of the
    mount at 0, the posts are loaded three times, at 12, 13 and 14. *)
Theorem delayedEventUpdate_burst :
  Effect.fetches
    (Effect.advance 100
       (Effect.play 12 [(0, Effect.Log); (1, Effect.Log); (2, Effect.Log)]%nat
          (Effect.effect true Effect.initial)))
  = [0; 12; 13; 14]%nat.
Proof. reflexivity. Qed.

(** [C4] A log at 0 and the cleanup at 5, with a delay of 12: the
    listener is gone, so a later log does nothing, but the timer is
    still pending and loads the posts at 12. *)
Theorem cleanup_keeps_timer :
  Effect.timers
    (Effect.play 12 [(0, Effect.Log); (5, Effect.Unmount)]%nat
       (Effect.effect true Effect.initial))
  = [(1, 12)]%nat ∧
  Effect.fetches
    (Effect.advance 12
       (Effect.play 12 [(0, Effect.Log); (5, Effect.Unmount); (6, Effect.Log)]%nat
          (Effect.effect true Effect.initial)))
  = [0; 12]%nat.
Proof. split; reflexivity. Qed.

(** Logs at 0 and 15 with a delay of 12: each starts a timer, and the
    posts are loaded at 12 and at 27. *)
Theorem delayedEventUpdate_rearms :
  Effect.fetches
    (Effect.advance 100
       (Effect.play 12 [(0, Effect.Log); (15, Effect.Log)]%nat
          (Effect.effect true Effect.initial)))
  = [0; 12; 27]%nat.
Proof. reflexivity. Qed.

(** ** The effect over any trace *)

Section Reloads.

Import Effect.
Local Open Scope nat_scope.

Variable D : nat.

Lemma fetches_call_dispatch a w : fetches (call (dispatch a) w) = fetches w.
Proof. unfold fetches, call. simpl. rewrite omap_app. simpl. by rewrite app_nil_r. Qed.

Lemma fetches_loadPosts w : fetches (loadPosts w) = fetches w ++ [now w].
Proof.
  unfold loadPosts. rewrite !fetches_call_dispatch.
  unfold fetches, call. simpl. by rewrite omap_app.
Qed.

Lemma filter_all {A} (P : A → Prop) `{∀ x, Decision (P x)} (l : list A) :
  Forall P l → filter P l = l.
Proof.
  induction 1 as [|x l Hx _ IH]; [done|].
  by rewrite filter_cons_True, IH.
Qed.

Lemma filter_none {A} (P : A → Prop) `{∀ x, Decision (P x)} (l : list A) :
  Forall (λ x, ¬ P x) l → filter P l = [].
Proof.
  induction 1 as [|x l Hx _ IH]; [done|].
  by rewrite filter_cons_False, IH.
Qed.

(** Clearing the handle of a timer of a well-formed table removes that
    timer and no other. *)
Lemma filter_clear_handle (kept rest : list (nat * nat)) h due :
  NoDup ((kept ++ (h, due) :: rest).*1) →
  filter (λ tm, tm.1 ≠ h) (kept ++ (h, due) :: rest) = kept ++ rest.
Proof.
  rewrite fmap_app, fmap_cons, NoDup_app, NoDup_cons. simpl.
  intros (_ & Hkept & Hh & _).
  rewrite filter_app, filter_cons_False by (by intros Hne).
  f_equal; apply filter_all, Forall_forall; intros [h' due'] Hin Heq;
    simpl in Heq; subst h'; apply (list_elem_of_fmap_2 fst) in Hin.
  - apply (Hkept h); [done|left].
  - by apply Hh.
Qed.

(** What a pass of the runtime over the pending timers does: the
    timers due by [t] are gone and have loaded the posts, in order, each
    at its time; the others remain. *)
Lemma fire_spec t pending : ∀ kept w,
  timers w = kept ++ pending → NoDup (handles w) →
  timers (fire t pending w) = kept ++ filter (λ tm, t < tm.2) pending ∧
  fetches (fire t pending w) = fetches w ++ filter (λ d, d ≤ t) pending.*2 ∧
  next_handle (fire t pending w) = next_handle w ∧
  listening (fire t pending w) = listening w ∧
  (now w ≤ t → now (fire t pending w) ≤ t).
Proof.
  induction pending as [|[h due] rest IH]; intros kept w Htimers Hnodup; simpl.
  - rewrite !filter_nil, !app_nil_r. by rewrite Htimers, app_nil_r.
  - unfold handles in Hnodup. rewrite Htimers in Hnodup. case_bool_decide as Hdue.
    + rewrite Htimers, filter_clear_handle by done.
      match goal with |- context [fire t rest ?w1] =>
        destruct (IH kept w1) as (Ht & Hf & Hn & Hl & Hnow)
      end.
      { done. }
      { unfold handles. simpl. rewrite fmap_app in *. rewrite fmap_cons in Hnodup.
        apply NoDup_app in Hnodup as (? & Hdisj & [_ ?]%NoDup_cons).
        apply NoDup_app. split_and!; [done| |done].
        intros x Hx Hin. apply (Hdisj x Hx). by right. }
      rewrite Ht, Hf, Hn, Hl, fetches_loadPosts. simpl.
      rewrite (filter_cons_False (λ tm, t < tm.2)) by (simpl; lia).
      rewrite (filter_cons_True (λ d, d ≤ t)) by done.
      rewrite <- app_assoc. split_and!; try done. intros _. by apply Hnow.
    + destruct (IH (kept ++ [(h, due)]) w) as (Ht & Hf & Hn & Hl & Hnow).
      { by rewrite <- app_assoc. }
      { unfold handles. by rewrite Htimers. }
      rewrite Ht, Hf, Hn, Hl.
      rewrite (filter_cons_True (λ tm, t < tm.2)) by (simpl; lia).
      rewrite (filter_cons_False (λ d, d ≤ t)) by done.
      rewrite <- app_assoc. done.
Qed.

Lemma advance_spec t w :
  NoDup (handles w) →
  timers (advance t w) = filter (λ tm, t < tm.2) (timers w) ∧
  fetches (advance t w) = fetches w ++ filter (λ d, d ≤ t) (dues w) ∧
  next_handle (advance t w) = next_handle w ∧
  listening (advance t w) = listening w ∧
  (now w ≤ t → now (advance t w) = t).
Proof.
  intros Hnodup.
  destruct (fire_spec t (timers w) [] w eq_refl Hnodup) as (Ht & Hf & Hn & Hl & Hnow).
  unfold advance. simpl. split_and!; try done.
  intros Hle. specialize (Hnow Hle). lia.
Qed.

Lemma filter_split_sorted t (l : list nat) :
  StronglySorted le l → filter (λ d, d ≤ t) l ++ filter (λ d, t < d) l = l.
Proof.
  induction 1 as [|d l _ IH Hd]; [done|].
  destruct (decide (d ≤ t)) as [Hle|Hgt].
  - rewrite filter_cons_True, filter_cons_False by lia. simpl. by rewrite IH.
  - rewrite filter_cons_False, filter_cons_True by lia.
    rewrite filter_none, filter_all; [done| |];
      eapply Forall_impl; [exact Hd| |exact Hd|]; simpl; intros; lia.
Qed.

Lemma dues_filter t (l : list (nat * nat)) :
  (filter (λ tm, t < tm.2) l).*2 = filter (λ d, t < d) l.*2.
Proof.
  induction l as [|[h d] l IH]; [done|]. rewrite fmap_cons. simpl.
  destruct (decide (t < d)).
  - rewrite (filter_cons_True (λ tm, t < tm.2)), (filter_cons_True (λ d, t < d)) by done.
    by rewrite fmap_cons, IH.
  - by rewrite (filter_cons_False (λ tm, t < tm.2)), (filter_cons_False (λ d, t < d)).
Qed.

Lemma handles_filter_elem (P : nat * nat → Prop) `{∀ x, Decision (P x)} l h :
  h ∈ (filter P l).*1 → h ∈ l.*1.
Proof.
  intros (tm & -> & [_ Hin]%list_elem_of_filter)%list_elem_of_fmap.
  by apply list_elem_of_fmap_2.
Qed.

Lemma handles_filter_NoDup (P : nat * nat → Prop) `{∀ x, Decision (P x)} l :
  NoDup l.*1 → NoDup (filter P l).*1.
Proof.
  induction l as [|tm l IH]; [done|]. rewrite fmap_cons.
  intros [Hfresh Hnd]%NoDup_cons. destruct (decide (P tm)).
  - rewrite filter_cons_True by done. rewrite fmap_cons. apply NoDup_cons.
    split; [|by apply IH]. intros Hin. by apply Hfresh, (handles_filter_elem P).
  - rewrite filter_cons_False by done. by apply IH.
Qed.

Lemma NewPost_spec w :
  listening w = true → interval w = None →
  timers (NewPost D w) = timers w ++ [(next_handle w, now w + D)] ∧
  fetches (NewPost D w) = fetches w ∧
  next_handle (NewPost D w) = S (next_handle w) ∧
  listening (NewPost D w) = true ∧
  interval (NewPost D w) = None ∧
  now (NewPost D w) = now w.
Proof.
  intros Hl Hi. unfold NewPost, delayedEventUpdate. rewrite Hl. simpl. rewrite Hi.
  simpl. split_and!; try done.
  unfold fetches. simpl. rewrite omap_app. simpl. by rewrite app_nil_r.
Qed.

Lemma interval_advance t w : interval (advance t w) = interval w.
Proof. unfold advance. simpl. apply interval_fire. Qed.

(** From a listening world whose pending timers are in the order of
    their due times: the logs at [ts] add their reloads to those that
    are pending, and none is lost. *)
Lemma play_logs ts : ∀ w T,
  listening w = true → interval w = None → timers_wf w →
  StronglySorted le (dues w) →
  Forall (λ d, d ≤ now w + D) (dues w) → Forall (λ d, d ≤ T) (dues w) →
  StronglySorted le ts → Forall (λ t, now w ≤ t) ts → Forall (λ t, t + D ≤ T) ts →
  fetches (advance T (play D (logs ts) w))
    = fetches w ++ dues w ++ ((λ t, t + D) <$> ts).
Proof.
  induction ts as [|t ts IH]; intros w T Hl Hi [Hnd Hlt] Hsorted Hnow HT Hts Hfrom Hby.
  - simpl. destruct (advance_spec T w Hnd) as (_ & -> & _).
    by rewrite filter_all, app_nil_r.
  - apply StronglySorted_cons in Hts as [Hts_t Hts].
    apply Forall_cons in Hfrom as [Hfrom_t Hfrom].
    apply Forall_cons in Hby as [Hby_t Hby].
    simpl.
    destruct (advance_spec t w Hnd) as (Ht1 & Hf1 & Hn1 & Hl1 & Hnow1).
    specialize (Hnow1 Hfrom_t). rewrite Hl in Hl1.
    pose proof (interval_advance t w) as Hi1. rewrite Hi in Hi1.
    destruct (NewPost_spec (advance t w) Hl1 Hi1) as (Ht2 & Hf2 & Hn2 & Hl2 & Hi2 & Hnow2).
    rewrite Hnow1 in Ht2, Hnow2. rewrite Hn1 in Ht2, Hn2.
    assert (dues (NewPost D (advance t w)) = filter (λ d, t < d) (dues w) ++ [t + D])
      as Hdues.
    { unfold dues. by rewrite Ht2, Ht1, fmap_app, dues_filter. }
    rewrite IH; try done.
    + rewrite Hf2, Hf1, Hdues, <- !app_assoc. f_equal.
      rewrite (app_assoc (filter _ _)), filter_split_sorted by done.
      done.
    + unfold timers_wf, handles. rewrite Ht2, Ht1, Hn2, fmap_app. simpl. split.
      * apply NoDup_app. split_and!.
        -- by apply handles_filter_NoDup.
        -- intros h Hin%handles_filter_elem ->%list_elem_of_singleton.
           rewrite Forall_forall in Hlt. specialize (Hlt _ Hin). lia.
        -- apply NoDup_singleton.
      * apply Forall_app. split; [|by repeat constructor].
        rewrite Forall_forall in *. intros h Hin%handles_filter_elem.
        specialize (Hlt _ Hin). lia.
    + rewrite Hdues. apply StronglySorted_app_2.
      * intros d1 d2 [_ Hd1]%list_elem_of_filter ->%list_elem_of_singleton.
        rewrite Forall_forall in Hnow. specialize (Hnow _ Hd1). lia.
      * clear -Hsorted. induction Hsorted as [|d l _ IH Hd]; [constructor|].
        destruct (decide (t < d)).
        -- rewrite filter_cons_True by done. constructor; [done|].
           rewrite Forall_forall in *. intros x [_ ?]%list_elem_of_filter. auto.
        -- by rewrite filter_cons_False.
      * repeat constructor.
    + rewrite Hdues, Hnow2. apply Forall_app. split; [|repeat constructor; lia].
      rewrite Forall_forall in *. intros d [_ Hd]%list_elem_of_filter.
      specialize (Hnow _ Hd). lia.
    + rewrite Hdues. apply Forall_app. split; [|by repeat constructor].
      rewrite Forall_forall in *. intros d [_ Hd]%list_elem_of_filter. auto.
    + rewrite Hnow2. eapply Forall_impl; [exact Hts_t|]. done.
Qed.

(** Every log that reaches the listener leads to one call of
    [loadPosts], [D] later: for logs at the times [ts], in order, and a
    time [T] by which all their timers are due, the posts have been
    loaded at the mount and then once for each log, at its time plus
    [D]; nothing is merged and nothing is lost. *)
Theorem every_log_reloads (ts : list nat) (T : nat) :
  Sorted le ts →
  Forall (λ t, t + D ≤ T) ts →
  fetches (advance T (play D (logs ts) (effect true initial)))
    = 0 :: ((λ t, t + D) <$> ts).
Proof.
  intros Hsorted HT.
  rewrite play_logs; try done.
  - split; constructor.
  - constructor.
  - apply Sorted_StronglySorted; [|done]. intros x y z. lia.
  - apply Forall_forall. intros; simpl; lia.
Qed.

End Reloads.

(** Logs at 0, 15 and 15 with a delay of 12. *)
Lemma every_log_reloads_0_15_15 :
  (Sorted le [0; 15; 15]%nat ∧ Forall (λ t, t + 12 ≤ 40)%nat [0; 15; 15]%nat) ∧
  Effect.fetches
    (Effect.advance 40
       (Effect.play 12 (logs [0; 15; 15]%nat) (Effect.effect true Effect.initial)))
  = [0; 12; 27; 27]%nat.
Proof.
  assert (Sorted le [0; 15; 15]%nat) as Hsorted by (repeat constructor; lia).
  assert (Forall (λ t, t + 12 ≤ 40)%nat [0; 15; 15]%nat) as HT
    by (repeat constructor; lia).
  split; [by split|].
  exact (every_log_reloads 12 [0; 15; 15]%nat 40%nat Hsorted HT).
Defined.

Section Quiet.

Import Effect.
Local Open Scope nat_scope.

Variable D : nat.

(** A pass over the pending timers only removes timers. *)
Lemma fire_sublist t pending : ∀ w,
  timers (fire t pending w) `sublist_of` timers w ∧
  next_handle (fire t pending w) = next_handle w ∧
  listening (fire t pending w) = listening w.
Proof.
  induction pending as [|[h due] rest IH]; intros w; simpl; [done|].
  case_bool_decide; [|apply IH].
  match goal with |- context [fire t rest ?w1] =>
    destruct (IH w1) as (Hsub & Hn & Hl) end.
  rewrite Hn, Hl. split; [|done].
  etrans; [exact Hsub|]. simpl. apply sublist_filter.
Qed.

(** Without a listener nothing is scheduled: the listener stays off,
    no handle is given out, and the pending timers only go away. *)
Lemma play_unsubscribed trace : ∀ w,
  listening w = false →
  listening (play D trace w) = false ∧
  next_handle (play D trace w) = next_handle w ∧
  timers (play D trace w) `sublist_of` timers w.
Proof.
  induction trace as [|[t o] trace IH]; intros w Hl; simpl; [done|].
  destruct (fire_sublist t (timers w) w) as (Hsub & Hn & Hl').
  assert (listening (occur D o (advance t w)) = false ∧
          next_handle (occur D o (advance t w)) = next_handle w ∧
          timers (occur D o (advance t w)) `sublist_of` timers w) as (Hl1 & Hn1 & Hsub1).
  { destruct o; simpl.
    - unfold NewPost, advance. simpl. by rewrite Hl', Hl.
    - unfold cleanup, clearTimeout, advance. simpl.
      destruct (interval _); simpl; split_and!; try done.
      etrans; [apply sublist_filter|done]. }
  destruct (IH _ Hl1) as (Hl2 & Hn2 & Hsub2).
  split_and!; [done|congruence|by etrans].
Qed.

(** After the cleanup the listener is gone for good: whatever logs,
    time and further cleanups follow, no timer is started and no
    handle is given out; the timers that were pending can only fire or
    be cleared. *)
Theorem cleanup_unsubscribes (w : World) (trace : list (nat * Occurrence)) :
  listening (play D trace (cleanup w)) = false ∧
  next_handle (play D trace (cleanup w)) = next_handle w ∧
  timers (play D trace (cleanup w)) `sublist_of` timers w.
Proof.
  destruct (play_unsubscribed trace (cleanup w)) as (Hl & Hn & Hsub).
  { unfold cleanup, clearTimeout. by destruct (interval _). }
  split_and!; [done| |].
  - rewrite Hn. unfold cleanup, clearTimeout. by destruct (interval _).
  - etrans; [exact Hsub|]. unfold cleanup, clearTimeout.
    destruct (interval _); simpl; [apply sublist_filter|done].
Qed.

(** Without a provider or a chain id the effect registers no
    listener: it loads the posts once, and whatever logs and time
    follow, it never calls [getPosts] or [dispatch] again and never
    starts a timer. *)
Theorem effect_not_ready (trace : list (nat * Occurrence)) :
  history (play D trace (effect false initial)) = history (loadPosts initial) ∧
  timers (play D trace (effect false initial)) = [] ∧
  fetches (play D trace (effect false initial)) = [0].
Proof.
  assert (∀ w, listening w = false → timers w = [] → interval w = None →
            history (play D trace w) = history w ∧ timers (play D trace w) = [])
    as Hidle.
  { induction trace as [|[t o] trace IH]; intros w Hl Ht Hi; simpl; [done|].
    assert (advance t w = MkWorld (now w `max` t) (history w) [] (next_handle w)
                            false None) as ->.
    { unfold advance. rewrite Ht. simpl. by rewrite Ht, Hl, Hi. }
    assert (∀ w1, listening w1 = false → timers w1 = [] → interval w1 = None →
              occur D o w1 = w1) as Hocc.
    { intros [? ? ? ? ? ?]; simpl; intros -> -> ->. by destruct o. }
    rewrite Hocc by done. by apply (IH (MkWorld _ _ _ _ _ _)). }
  destruct (Hidle (effect false initial)) as [Hh Ht]; try done.
  split_and!; [done..|]. unfold fetches. by rewrite Hh.
Qed.

(** The value of [isReloadIntervalLoading] that was dispatched last is
    [true] only while a timer is pending, whose [loadPosts] will
    dispatch [false]: the effect never leaves the flag on without a
    reload to come. *)
Theorem loading_flag_has_timer (ready : bool) (trace : list (nat * Occurrence)) :
  last_loading (play D trace (effect ready initial)) = Some false ∨
  timers (play D trace (effect ready initial)) ≠ [].
Proof.
  assert (∀ w, last_loading (loadPosts w) = Some false) as Hload.
  { intros w. unfold last_loading, loadPosts, call. simpl.
    rewrite omap_app. simpl. by rewrite last_snoc. }
  assert (∀ t pending w, fire t pending w = w ∨
            last_loading (fire t pending w) = Some false) as Hfire.
  { intros t pending. induction pending as [|[h due] rest IH]; intros w; simpl;
      [by left|].
    case_bool_decide; [|apply IH]. right.
    match goal with |- context [fire t rest ?w1] =>
      destruct (IH w1) as [-> | ->]; [apply Hload|done] end. }
  assert (∀ w, interval w = None →
            (last_loading w = Some false ∨ timers w ≠ []) →
            last_loading (play D trace w) = Some false ∨
            timers (play D trace w) ≠ []) as Hinv.
  { induction trace as [|[t o] trace IH]; intros w Hi Hw; simpl; [done|].
    apply IH; [by rewrite interval_occur, interval_advance|].
    assert (last_loading (advance t w) = Some false ∨ timers (advance t w) ≠ [])
      as Hadv.
    { unfold advance, last_loading. simpl.
      destruct (Hfire t (timers w) w) as [-> | Hfalse]; [exact Hw|by left]. }
    destruct o; simpl.
    - destruct (listening (advance t w)) eqn:Hl.
      + right. destruct (NewPost_spec D (advance t w) Hl) as (Ht & _);
          [by rewrite interval_advance|].
        rewrite Ht. by intros [_ ?]%app_eq_nil.
      + unfold NewPost. by rewrite Hl.
    - unfold cleanup. rewrite interval_advance, Hi. exact Hadv. }
  apply Hinv.
  - by destruct ready.
  - left. destruct ready; apply (Hload initial).
Qed.

End Quiet.

(** ** The render over any response *)

(** [map] calls its callback on the elements in order, and on all of
    them unless one raises. *)
Lemma calls_array_map_spec {A B} (f : A → Render B) (g : A → list Post.t) l :
  (∀ x, calls (f x) `prefix_of` g x) →
  (∀ x y, outcome (f x) = Normal y → calls (f x) = g x) →
  calls (array_map f l) `prefix_of` concat (g <$> l) ∧
  (∀ ys, outcome (array_map f l) = Normal ys →
         calls (array_map f l) = concat (g <$> l)).
Proof.
  intros Hprefix Hnormal. induction l as [|x l [IHp IHn]]; [done|].
  rewrite fmap_cons. simpl concat. rewrite outcome_array_map_cons. simpl array_map.
  rewrite calls_bind.
  destruct (outcome (f x)) as [y|e] eqn:Hx; simpl.
  - rewrite (Hnormal x y Hx), calls_bind. simpl.
    assert (match outcome (array_map f l) with
            | Normal _ => [] | Throw _ => [] end = ([] : list Post.t)) as ->
      by (by destruct (outcome (array_map f l))).
    rewrite app_nil_r. split; [by apply prefix_app|].
    destruct (outcome (array_map f l)) as [ys'|] eqn:Hl; [|done].
    intros _ _. by rewrite (IHn ys').
  - rewrite app_nil_r. split; [|done]. by apply prefix_app_r.
Qed.

(** The posts that [parsePost] is called on are the posts of the
    transactions that passed the filter, each once, in the order of the
    response: all of them when the render completes, those up to the
    post at which it raises otherwise. *)
Theorem parsePost_calls (deny : list jsstring) (loading error : bool)
    (transactions : list Transaction.t) :
  calls (render deny loading error transactions)
    `prefix_of` concat (Transaction.posts <$> censor deny transactions) ∧
  (∀ view, outcome (render deny loading error transactions) = Normal view →
     calls (render deny loading error transactions)
       = concat (Transaction.posts <$> censor deny transactions)).
Proof.
  assert (∀ tx,
    calls (render_transaction tx) `prefix_of` Transaction.posts tx ∧
    (∀ row, outcome (render_transaction tx) = Normal row →
            calls (render_transaction tx) = Transaction.posts tx)) as Htx.
  { intros tx. unfold render_transaction.
    assert (∀ l : list Post.t, concat ((λ post, [post]) <$> l) = l) as Hconcat.
    { induction l as [|p l IH]; [done|]. rewrite fmap_cons. simpl. by rewrite IH. }
    pose proof (calls_array_map_spec (render_post tx) (λ post, [post])
                  (Transaction.posts tx)) as Hspec.
    rewrite Hconcat in Hspec.
    apply Hspec; intros post; by rewrite calls_render_post. }
  unfold render.
  destruct (negb loading && negb error && bool_decide (length transactions = 0%nat))
    eqn:Hempty.
  - apply andb_true_iff in Hempty as [_ Hlen%bool_decide_eq_true].
    destruct transactions; [|done]. by split.
  - rewrite calls_bind, outcome_bind.
    destruct (calls_array_map_spec render_transaction Transaction.posts
                (censor deny transactions)) as [Hp Hn].
    { intros tx. apply Htx. }
    { intros tx row. apply Htx. }
    destruct (outcome (array_map render_transaction (censor deny transactions)))
      as [rows|] eqn:Hrows; simpl; rewrite app_nil_r; [|by split].
    split; [done|]. intros _ _. by apply (Hn rows).
Qed.

(** A child is what its own post yields, in the row of its own
    transaction: a [Box] carries the key of the post at its place and
    the author, the link and the time of the transaction at the place
    of its row, among the transactions that passed the filter. *)
Theorem children_in_place (deny : list jsstring) (loading error : bool)
    (transactions : list Transaction.t) (rows : list (list Child)) :
  outcome (render deny loading error transactions) = Normal (Posts rows) →
  Forall2 (λ tx row,
      Forall2 (λ post child,
          label_of child = None ∨
          label_of child = Some (Post.id post, Account.id (Transaction.from tx),
                                 Transaction.id tx, Transaction.timestamp tx))
        (Transaction.posts tx) row)
    (censor deny transactions) rows.
Proof.
  unfold render.
  destruct (negb loading && negb error && bool_decide (length transactions = 0%nat));
    [done|].
  rewrite outcome_bind.
  destruct (outcome (array_map _ _)) as [rows'|] eqn:Hrows; [simpl|done].
  intros [= ->]. apply outcome_array_map_Forall2 in Hrows.
  eapply Forall2_impl; [exact Hrows|]. simpl. intros tx row Hrow.
  apply outcome_array_map_Forall2 in Hrow.
  eapply Forall2_impl; [exact Hrow|]. simpl. intros post child.
  rewrite outcome_render_post.
  destruct (parsePost post) as [parsed|]; [simpl|done].
  destruct (get (lit "text") parsed) as [text|]; [simpl|done].
  destruct (get (lit "image") parsed) as [image|]; [simpl|done].
  destruct (get (lit "type") parsed) as [type|]; [simpl|done].
  unfold guard. destruct (ToBoolean text); [|intros [= <-]; by left].
  destruct (eq_microblog type) as [[|]|]; simpl; intros [= <-];
    first [by left | by right].
Qed.

(** The response of one transaction of [0xGOOD] with three posts. *)
Lemma children_in_place_three_posts :
  outcome (render [lit "0xBAD"] false false [three_posts (lit "hello")])
    = Normal (Posts
        [[PostBox (lit "0x01") (lit "0xGOOD") (lit "0xabc") 1650000000
            (JSString (lit "microblog")) (JSString (lit "one")) JSUndefined;
          Falsy (JSBool false);
          PostBox (lit "0x01") (lit "0xGOOD") (lit "0xabc") 1650000000
            (JSString (lit "microblog")) (JSString (lit "two")) JSUndefined]]) ∧
  length (censor [lit "0xBAD"] [three_posts (lit "hello")]) = 1%nat.
Proof.
  split; [reflexivity|].
  exact (Forall2_length _ _ _
           (children_in_place [lit "0xBAD"] false false
              [three_posts (lit "hello")] _ eq_refl)).
Defined.

(** ** Posts that are shown *)






(** For a post whose action is a microblog action with a text that
    is a string and not empty, and an image that is a string or
    missing, the render callback returns a [Box] with that text and
    that image, whatever the [rawContent] of the post is. *)
Theorem microblog_action_shown (tx : Transaction.t) (id rawContent : jsstring)
    (props : list (jsstring * JSValue)) (text : jsstring) :
  own (lit "type") props = Some (JSString (lit "microblog")) →
  own (lit "text") props = Some (JSString text) →
  text ≠ [] →
  (own (lit "image") props = None ∨ ∃ cid, own (lit "image") props = Some (JSString cid)) →
  outcome (render_post tx (Post.Make id rawContent (JSObject props)))
    = Normal (PostBox id (Account.id (Transaction.from tx)) (Transaction.id tx)
                (Transaction.timestamp tx) (JSString (lit "microblog")) (JSString text)
                (default JSUndefined (own (lit "image") props))) ∧
  of_primitives (PostBox id (Account.id (Transaction.from tx)) (Transaction.id tx)
                   (Transaction.timestamp tx) (JSString (lit "microblog")) (JSString text)
                   (default JSUndefined (own (lit "image") props))) = true.
Proof.
  intros Htype Htext Hne Himage. split.
  - rewrite outcome_render_post, parsePost_cases. simpl Post.action.
    rewrite is_microblog_object, Htype. simpl.
    rewrite Htext, Htype. simpl. unfold guard. simpl.
    by rewrite bool_decide_eq_true_2.
  - by destruct Himage as [-> | [cid ->]].
Qed.

(** The action [{type: microblog, text: hi}] next to a [rawContent]
    that is no JSON. *)
Lemma microblog_action_shown_hi :
  (own (lit "type") (action_of "microblog" "hi") = Some (JSString (lit "microblog")) ∧
   own (lit "text") (action_of "microblog" "hi") = Some (JSString (lit "hi")) ∧
   lit "hi" ≠ [] ∧ own (lit "image") (action_of "microblog" "hi") = None) ∧
  outcome (render_post (transaction_of (lit "0xGOOD") [])
             (Post.Make (lit "0x01") (lit "hello") (JSObject (action_of "microblog" "hi"))))
    = Normal (PostBox (lit "0x01") (lit "0xGOOD") (lit "0xabc") 1650000000
                (JSString (lit "microblog")) (JSString (lit "hi")) JSUndefined).
Proof.
  assert (lit "hi" ≠ []) as Hne by discriminate.
  split; [by split_and!|].
  exact (proj1 (microblog_action_shown (transaction_of (lit "0xGOOD") []) (lit "0x01")
           (lit "hello") (action_of "microblog" "hi") (lit "hi")
           eq_refl eq_refl Hne (or_introl eq_refl))).
Defined.

(** ** What stands in the place of the posts *)

(** A response that holds transactions, all of them of deny-listed
    authors, renders an empty list of posts, and not the message that
    there are no posts yet: nothing is decoded and nothing is shown. *)
Theorem all_censored_blank (deny : list jsstring) (loading error : bool)
    (transactions : list Transaction.t) :
  transactions ≠ [] →
  Forall (λ tx, Account.id (Transaction.from tx) ∈ deny) transactions →
  render deny loading error transactions = ([], Normal (Posts [])).
Proof.
  intros Hne Hall. unfold render.
  rewrite (bool_decide_eq_false_2 (length transactions = 0%nat))
    by (by destruct transactions).
  rewrite !andb_false_r. unfold censor. rewrite filter_none; [done|].
  eapply Forall_impl; [exact Hall|]. simpl. intros tx Hin Hfree. by apply Hfree.
Qed.

(** Two transactions of [0xBAD], while the query is idle. *)
Lemma all_censored_blank_0xBAD :
  ([transaction_of (lit "0xBAD") [raw_post (microblog_json "one")];
    transaction_of (lit "0xBAD") [raw_post (lit "null")]] ≠ [] ∧
   Forall (λ tx, Account.id (Transaction.from tx) ∈ [lit "0xBAD"])
     [transaction_of (lit "0xBAD") [raw_post (microblog_json "one")];
      transaction_of (lit "0xBAD") [raw_post (lit "null")]]) ∧
  render [lit "0xBAD"] false false
    [transaction_of (lit "0xBAD") [raw_post (microblog_json "one")];
     transaction_of (lit "0xBAD") [raw_post (lit "null")]]
  = ([], Normal (Posts [])).
Proof.
  assert (Forall (λ tx, Account.id (Transaction.from tx) ∈ [lit "0xBAD"])
            [transaction_of (lit "0xBAD") [raw_post (microblog_json "one")];
             transaction_of (lit "0xBAD") [raw_post (lit "null")]]) as Hall.
  { repeat constructor. }
  assert ([transaction_of (lit "0xBAD") [raw_post (microblog_json "one")];
           transaction_of (lit "0xBAD") [raw_post (lit "null")]] ≠ []) as Hne
    by discriminate.
  split; [by split|].
  exact (all_censored_blank [lit "0xBAD"] false false _ Hne Hall).
Defined.

(** ** Actions that are no objects *)

(** An action that is a string, a number or a boolean makes the test
    ['type' in action] raise, as a missing action does: the post is
    decoded to the fallback even when its [rawContent] is a
    well-formed payload.  An action that is an array has no ['type']:
    the post is decoded from its [rawContent], as with an empty
    action. *)
Theorem parsePost_action_not_object (id rawContent : jsstring) :
  (∀ action, (∃ s, action = JSString s) ∨ (∃ d, action = JSNumber d)
             ∨ (∃ b, action = JSBool b) →
     parsePost (Post.Make id rawContent action)
       = Normal (JSObject [(lit "type", JSString (lit "unknown"));
                           (lit "text", JSString rawContent)])) ∧
  (∀ elems, parsePost (Post.Make id rawContent (JSArray elems))
            = Normal match JSON.parse rawContent with
                     | Normal parsed => parsed
                     | Throw _ =>
                         JSObject [(lit "type", JSString (lit "unknown"));
                                   (lit "text", JSString rawContent)]
                     end).
Proof.
  split.
  - by intros action [[s ->] | [[d ->] | [b ->]]].
  - intros elems. rewrite parsePost_cases. simpl.
    by destruct (JSON.parse rawContent).
Qed.

(** ** Responses that render *)

(** When every post of a transaction that passed the filter is decoded
    to a value other than [null] and [undefined] whose [text], [image]
    and [type] are no objects, the render expression evaluates without
    raising, and every [Box] it yields is built from values that are
    no objects. *)
Theorem render_completes (deny : list jsstring) (loading error : bool)
    (transactions : list Transaction.t) :
  (∀ tx post decoded,
     tx ∈ censor deny transactions → post ∈ Transaction.posts tx →
     parsePost post = Normal decoded →
     decoded ≠ JSNull ∧ decoded ≠ JSUndefined ∧
     ∀ k v, k ∈ [lit "text"; lit "image"; lit "type"] →
            get k decoded = Normal v → primitive v = true) →
  ∃ view,
    outcome (render deny loading error transactions) = Normal view ∧
    ∀ rows, view = Posts rows → Forall (λ c, of_primitives c = true) (concat rows).
Proof.
  intros Hposts.
  assert (∀ {A B} (f : A → Render B) (P : B → Prop) (l : list A),
            (∀ x, x ∈ l → ∃ y, outcome (f x) = Normal y ∧ P y) →
            ∃ ys, outcome (array_map f l) = Normal ys ∧ Forall P ys) as Hmap.
  { intros A B f P l. induction l as [|x l IH]; intros Hf; [by eexists|].
    rewrite outcome_array_map_cons.
    destruct (Hf x) as (y & -> & Hy); [left|]. simpl.
    destruct IH as (ys & -> & Hys); [|simpl; eauto].
    intros x' Hin. apply Hf. by right. }
  unfold render.
  destruct (negb loading && negb error && bool_decide (length transactions = 0%nat));
    [by eexists|].
  rewrite outcome_bind.
  destruct (Hmap _ _ render_transaction (Forall (λ c, of_primitives c = true))
              (censor deny transactions)) as (rows & -> & Hrows).
  - intros tx Htx. apply Hmap. intros post Hpost.
    rewrite outcome_render_post.
    pose proof (parsePost_cases post) as Hdecoded.
    destruct (Hposts tx post _ Htx Hpost Hdecoded) as (Hnull & Hundef & Hprim).
    rewrite Hdecoded. simpl. revert Hnull Hundef Hprim.
    match goal with |- context [get _ ?v] => generalize v end.
    intros decoded Hnull Hundef Hprim.
    assert (∀ k, ∃ v, get k decoded = Normal v) as Hget.
    { intros k. destruct decoded; simpl; eauto; done. }
    destruct (Hget (lit "text")) as [text Htext].
    destruct (Hget (lit "image")) as [image Himage].
    destruct (Hget (lit "type")) as [type Htype].
    rewrite Htext, Himage, Htype. simpl.
    apply (Hprim _ _ (list_elem_of_here _ _)) in Htext.
    apply (Hprim _ _ (list_elem_of_further _ _ _ (list_elem_of_here _ _))) in Himage.
    apply (Hprim _ _ (list_elem_of_further _ _ _
                        (list_elem_of_further _ _ _ (list_elem_of_here _ _)))) in Htype.
    unfold guard. destruct (ToBoolean text); [|simpl; eauto].
    assert (eq_microblog type = Normal (ToString_is_microblog type)) as ->
      by (by destruct type).
    destruct (ToString_is_microblog type); simpl; [|eauto].
    eexists. split; [done|]. simpl. by rewrite Htext, Himage, Htype.
  - simpl. eexists. split; [done|]. intros rows' [= <-].
    by apply Forall_concat.
Qed.

(** A transaction of [0xGOOD] with two payloads and a text that is no
    JSON: every post is decoded to an object with strings as type and
    text, and no image. *)
Lemma render_completes_three_posts :
  ∃ view,
    outcome (render [lit "0xBAD"] false false [three_posts (lit "hello")])
      = Normal view ∧
    ∀ rows, view = Posts rows → Forall (λ c, of_primitives c = true) (concat rows).
Proof.
  apply render_completes. intros tx post decoded Htx Hpost Hdecoded.
  unfold censor in Htx. rewrite filter_cons_True, filter_nil in Htx.
  - apply list_elem_of_singleton in Htx as ->.
    assert (∃ t x, decoded = JSObject [(lit "type", JSString t); (lit "text", JSString x)])
      as (t & x & ->).
    { unfold three_posts, transaction_of in Hpost. simpl in Hpost.
      repeat (apply elem_of_cons in Hpost as [-> | Hpost]);
        [..|by apply elem_of_nil in Hpost];
        vm_compute in Hdecoded; injection Hdecoded as <-; eauto. }
    split_and!; [done..|]. intros k v Hk.
    repeat (apply elem_of_cons in Hk as [-> | Hk]); [..|by apply elem_of_nil in Hk];
      by intros [= <-].
  - intros Hin. apply list_elem_of_singleton in Hin. discriminate Hin.
Defined.
